(** * ARC Raiders quest tracker: progress store, graph traversals, tier sorter

    A shallow embedding of the three pieces of logic of the repository:

    - the [useQuests] composable (hydration of the completed set from
      local storage, [toggleQuest], [resetProgress], the two worklist
      traversals [completeQuestPrerequisites] and [uncompleteDependants],
      and the derived predicates [getQuestAvailability] and
      [anyDependantCompleted]);
    - the build-time script that turns the scraped title-keyed data into
      tiers ([generateId] and [main]).

    JavaScript's [Set] and [Map] iterate in insertion order, and the code
    relies on that order ([Array.from(questMap.values())],
    [Array.from(allQuests.values())]); both are therefore modelled as
    insertion-ordered lists. *)

From Stdlib Require Import Ascii String DecimalString.
From stdpp Require Import base decidable option list strings relations.

(** ** JavaScript containers *)

Module Js.

(** [Set<string>]: the elements in insertion order. Every operation below
    keeps the list duplicate-free when it starts from a duplicate-free
    one. *)
Definition set_has (x : string) (s : list string) : bool :=
  bool_decide (x ∈ s).

Definition set_add (x : string) (s : list string) : list string :=
  if set_has x s then s else s ++ [x].

Definition set_delete (x : string) (s : list string) : list string :=
  filter (λ y, y ≠ x) s.

(** [new Set(iterable)] *)
Definition set_from (l : list string) : list string :=
  foldl (λ s x, set_add x s) [] l.

(** [this.union(other)]: a copy of [this], then the elements of [other]
    that are not yet present, in [other]'s order. *)
Definition set_union (this other : list string) : list string :=
  foldl (λ s x, set_add x s) this other.

(** [this.difference(other)]: the elements of [this] that [other] does
    not have, in [this]'s order. *)
Definition set_difference (this other : list string) : list string :=
  filter (λ x, set_has x other = false) this.

(** [Map<string, V>]: the entries in insertion order. *)
Fixpoint map_get {V} (k : string) (m : list (string * V)) : option V :=
  match m with
  | [] => None
  | (k', v) :: m' => if decide (k' = k) then Some v else map_get k m'
  end.

(** [map.set(k, v)]: an existing key keeps its position and gets the new
    value; a new key is appended. *)
Fixpoint map_set {V} (k : string) (v : V) (m : list (string * V))
  : list (string * V) :=
  match m with
  | [] => [(k, v)]
  | (k', v') :: m' =>
      if decide (k' = k) then (k, v) :: m' else (k', v') :: map_set k v m'
  end.

Definition map_has {V} (k : string) (m : list (string * V)) : bool :=
  bool_decide (is_Some (map_get k m)).

Definition map_values {V} (m : list (string * V)) : list V := m.*2.

Definition map_keys {V} (m : list (string * V)) : list string := m.*1.

(** [new Map(entries)] *)
Definition map_from {V} (entries : list (string * V)) : list (string * V) :=
  foldl (λ m kv, map_set kv.1 kv.2 m) [] entries.

(** A [while] loop whose body is [step]: [step] answers [None] when the
    loop condition is false. [fuel] bounds the number of iterations;
    [None] means the bound was too small. *)
Fixpoint while {St} (step : St → option St) (fuel : nat) (st : St)
  : option St :=
  match step st with
  | None => Some st
  | Some st' =>
      match fuel with
      | 0 => None
      | S fuel' => while step fuel' st'
      end
  end.

(** The states in which the iterations of that loop start, the last one
    being the state in which the loop condition is tested for the last
    time. *)
Fixpoint trace {St} (step : St → option St) (fuel : nat) (st : St)
  : list St :=
  st :: match step st with
        | None => []
        | Some st' =>
            match fuel with
            | 0 => []
            | S fuel' => trace step fuel' st'
            end
        end.

End Js.

(** ** The generated catalog ([questData.ts]) *)

Module QuestData.

Record Quest := {
  id : string;
  title : string;
  url : string;
  dependencies : list string   (* quest ids *)
}.

End QuestData.

(** ** The [useQuests] composable *)

Module UseQuests.
Import Js.
Import QuestData.

Section Composable.

(** [questTiers], the catalog exported by [questData.ts]. *)
Variable questTiers : list (list Quest).

(** [new Map(questTiers.flat().map(q => [q.id, q]))] *)
Definition questMap : list (string * Quest) :=
  map_from ((λ q, (id q, q)) <$> concat questTiers).

Definition toggleQuest (i : string) (completedQuests : list string)
  : list string :=
  if set_has i completedQuests
  then set_delete i completedQuests
  else set_add i completedQuests.

Definition resetProgress (completedQuests : list string) : list string :=
  [].

(** *** [completeQuestPrerequisites]

    The loop state is the pair of [queue] and [questsToComplete]. The
    array [queue] is used as a stack ([push] and [pop] both work at its
    end), so the list holds it from its last element to its first: the
    head of the list is what [pop] returns. *)
Definition prerequisites_step (st : list string * list string)
  : option (list string * list string) :=
  let '(queue, questsToComplete) := st in
  match queue with
  | [] => None
  | currentId :: queue =>
      if set_has currentId questsToComplete then Some (queue, questsToComplete)
      else
        let questsToComplete := set_add currentId questsToComplete in
        match map_get currentId questMap with
        | Some quest =>
            Some (foldl (λ q depId, depId :: q) queue (dependencies quest),
                  questsToComplete)
        | None => Some (queue, questsToComplete)
        end
  end.

(** An iteration bound for the loop above: every iteration pops one
    entry, and entries are pushed once per listed dependency of a quest
    stored in the map, plus the initial one. *)
Definition prerequisites_fuel : nat :=
  S (sum_list (length ∘ dependencies <$> map_values questMap)).

Definition completeQuestPrerequisites (questId : string)
    (completedQuests : list string) : option (list string) :=
  '(_, questsToComplete) ← while prerequisites_step prerequisites_fuel
                             ([questId], []);
  let questsToComplete := set_delete questId questsToComplete in
  Some (set_union questsToComplete completedQuests).

(** *** [uncompleteDependants] *)
Definition dependants_of (currentId : string) : list Quest :=
  filter (λ q, currentId ∈ dependencies q) (map_values questMap).

Definition dependants_step (st : list string * list string)
  : option (list string * list string) :=
  let '(queue, questsToUncomplete) := st in
  match queue with
  | [] => None
  | currentId :: queue =>
      if set_has currentId questsToUncomplete
      then Some (queue, questsToUncomplete)
      else
        let questsToUncomplete := set_add currentId questsToUncomplete in
        let dependants := dependants_of currentId in
        Some (foldl (λ q dep, id dep :: q) queue dependants,
              questsToUncomplete)
  end.

Definition dependants_fuel : nat :=
  S (sum_list (length ∘ dependencies <$> map_values questMap)).

Definition uncompleteDependants (questId : string)
    (completedQuests : list string) : option (list string) :=
  '(_, questsToUncomplete) ← while dependants_step dependants_fuel
                               ([questId], []);
  let newSet := set_from completedQuests in
  Some (set_difference newSet questsToUncomplete).

(** *** Derived predicates *)
Definition getQuestAvailability (quest : Quest)
    (completedQuests : list string) : bool :=
  if set_has (id quest) completedQuests then false
  else forallb (λ depId, set_has depId completedQuests) (dependencies quest).

Definition anyDependantCompleted (quest : Quest)
    (completedQuests : list string) : bool :=
  let dependants :=
    filter (λ q, id quest ∈ dependencies q) (map_values questMap) in
  existsb (λ dep, set_has (id dep) completedQuests) dependants.

End Composable.

(** *** Hydration from local storage ([onMounted])

    A statement either completes normally or throws. *)
Inductive Completion (A : Type) : Type :=
| Normal (a : A)
| Throw (e : string).
Global Arguments Normal {A} a.
Global Arguments Throw {A} e.

Definition bind_completion {A B} (c : Completion A) (k : A → Completion B)
  : Completion B :=
  match c with
  | Normal a => k a
  | Throw e => Throw e
  end.

(** [try { body } catch (e) { handler }] *)
Definition try_catch {A} (body : Completion A)
    (handler : string → Completion A) : Completion A :=
  match body with
  | Normal a => Normal a
  | Throw e => handler e
  end.

(** What [JSON.parse] can return. The store is declared [Set<string>] and
    the application itself only ever persists arrays of quest ids, so the
    items of an array are taken at that type. Numbers keep their
    literal and objects their keys; nothing reads either. *)
Inductive Json :=
| JNull
| JBool (b : bool)
| JNumber (literal : string)
| JString (s : string)
| JArray (items : list string)
| JObject (keys : list string).

Definition Array_isArray (v : Json) : bool :=
  match v with
  | JArray _ => true
  | _ => false
  end.

(** The three pieces of shared state the hydration touches, and the
    lines written with [console.error]. *)
Record Store := {
  isInitialized : bool;
  completedQuests : list string;
  console_errors : list string
}.

(** The state [useState] starts from. *)
Definition initial_store : Store :=
  {| isInitialized := false; completedQuests := []; console_errors := [] |}.

Section Hydration.

(** [JSON.parse], which throws a [SyntaxError] on text that is not
    JSON. *)
Variable JSON_parse : string → Completion Json.

(** The callback given to [onMounted]. [getItem] is the completion of
    [localStorage.getItem('arc-raiders-progress')]: [Normal None] is
    the [null] of a missing key. *)
Definition onMounted (getItem : Completion (option string)) (st : Store)
  : Completion Store :=
  if isInitialized st then Normal st
  else
    let st := {| isInitialized := true;
                 completedQuests := completedQuests st;
                 console_errors := console_errors st |} in
    try_catch
      (bind_completion getItem (λ stored,
         match stored with
         | Some text =>
             if bool_decide (text ≠ "") then
               bind_completion (JSON_parse text) (λ parsed,
                 match parsed with
                 | JArray items =>
                     Normal {| isInitialized := isInitialized st;
                               completedQuests := set_from items;
                               console_errors := console_errors st |}
                 | _ => Normal st
                 end)
             else Normal st
         | None => Normal st
         end))
      (λ e,
         Normal {| isInitialized := isInitialized st;
                   completedQuests := completedQuests st;
                   console_errors :=
                     console_errors st
                       ++ ["Error loading quest progress on mount: " +:+ e] |}).

End Hydration.

End UseQuests.

(** ** The scraped data ([raw/questData.json]) *)

Module RawData.

(** One value of the title-keyed mapping. *)
Record RawQuest := {
  url : string;
  dependencies : list string;   (* quest titles *)
  unlocks : list string         (* quest titles *)
}.

End RawData.

(** ** The tier generation script *)

Module GenerateTiers.
Import Js.
Import QuestData.

(** *** [generateId]

    A title is a string of code units below 256. In that range
    [toLowerCase] changes the letters [A]-[Z] and otherwise only maps
    characters outside ASCII to characters outside ASCII, all of which
    the second [replace] removes; the white space of [trim] and of [\s]
    is the characters 9 to 13, 32 and 160. Titles with code units beyond
    255 are the subject of the module [Utf16] below, which agrees with
    this one on the titles both cover (lemma
    [Utf16Facts.generateId_units]). *)
Definition lower_char (c : ascii) : ascii :=
  let n := nat_of_ascii c in
  if (65 <=? n)%nat && (n <=? 90)%nat then ascii_of_nat (n + 32) else c.

Fixpoint toLowerCase (s : string) : string :=
  match s with
  | EmptyString => EmptyString
  | String c s => String (lower_char c) (toLowerCase s)
  end.

(** [s.replace(/[class]/g, '')] for a character class given as a test. *)
Fixpoint remove_all (class : ascii → bool) (s : string) : string :=
  match s with
  | EmptyString => EmptyString
  | String c s => if class c then remove_all class s
                  else String c (remove_all class s)
  end.

Definition is_apostrophe (c : ascii) : bool :=
  (nat_of_ascii c =? 39)%nat.

(** The class [[^a-z0-9 ]]. *)
Definition not_lower_alnum_space (c : ascii) : bool :=
  let n := nat_of_ascii c in
  negb (((97 <=? n)%nat && (n <=? 122)%nat)
        || ((48 <=? n)%nat && (n <=? 57)%nat)
        || (n =? 32)%nat).

Definition is_white_space (c : ascii) : bool :=
  let n := nat_of_ascii c in
  ((9 <=? n)%nat && (n <=? 13)%nat) || (n =? 32)%nat || (n =? 160)%nat.

Fixpoint trimStart (s : string) : string :=
  match s with
  | EmptyString => EmptyString
  | String c s' => if is_white_space c then trimStart s' else s
  end.

Definition trim (s : string) : string :=
  String.rev (trimStart (String.rev (trimStart s))).

(** [s.replace(/\s+/g, '_')]: [in_run] tells that the previous character
    belonged to a run of white space that was already replaced. *)
Fixpoint replace_space_runs (in_run : bool) (s : string) : string :=
  match s with
  | EmptyString => EmptyString
  | String c s =>
      if is_white_space c then
        if in_run then replace_space_runs true s
        else String "_" (replace_space_runs true s)
      else String c (replace_space_runs false s)
  end.

Definition generateId (title : string) : string :=
  replace_space_runs false
    (trim
       (remove_all not_lower_alnum_space
          (remove_all is_apostrophe
             (toLowerCase title)))).

(** *** [main] *)

Inductive ConsoleLine :=
| console_log (text : string)
| console_warn (text : string)
| console_error (text : string).

(** What a run of the script leaves behind: the console, and the value of
    [questTiers] in the generated [questData.ts] when the file is
    written. *)
Record Run := {
  console : list ConsoleLine;
  written : option (list (list Quest))
}.

(** First pass: [titleToIdMap] and the warnings. *)
Definition first_pass (questTitles : list string)
  : list (string * string) * list ConsoleLine :=
  foldl (λ '(titleToIdMap, out) title,
           let i := generateId title in
           let out :=
             if map_has title titleToIdMap
             then out ++ [console_warn
                            ("Duplicate title found (will be overwritten): "
                               +:+ title)]
             else out in
           (map_set title i titleToIdMap, out))
        ([], []) questTitles.

(** [Boolean] on the result of [titleToIdMap.get]: [undefined] and the
    empty string are falsy. *)
Definition Boolean (v : option string) : bool :=
  match v with
  | Some s => bool_decide (s ≠ "")
  | None => false
  end.

Definition dependencyIds (titleToIdMap : list (string * string))
    (questData : RawData.RawQuest) : list string :=
  omap (λ v, v)
    (filter (λ v, Boolean v)
       ((λ depTitle, map_get depTitle titleToIdMap)
          <$> RawData.dependencies questData)).

(** Second pass: [allQuests]. The keys of [questMap] are walked together
    with their values ([questMap[title]]). Every title was stored in
    [titleToIdMap] by the first pass (lemma [first_pass_get]), so the
    [None] branch is never taken. *)
Definition second_pass (questMap : list (string * RawData.RawQuest))
    (titleToIdMap : list (string * string)) : list (string * Quest) :=
  foldl (λ allQuests '(title, questData),
           match map_get title titleToIdMap with
           | Some i =>
               map_set i {| id := i;
                            title := title;
                            url := RawData.url questData;
                            dependencies :=
                              dependencyIds titleToIdMap questData |}
                 allQuests
           | None => allQuests
           end)
        [] questMap.

Definition depsMet (processedQuestIds : list string) (quest : Quest) : bool :=
  forallb (λ depId, set_has depId processedQuestIds) (dependencies quest).

(** The [for] loop of one round: [(currentTier, questsForNextRound)]. *)
Definition round (processedQuestIds : list string)
    (remainingQuests : list Quest) : list Quest * list Quest :=
  foldl (λ '(currentTier, questsForNextRound) quest,
           if depsMet processedQuestIds quest
           then (currentTier ++ [quest], questsForNextRound)
           else (currentTier, questsForNextRound ++ [quest]))
        ([], []) remainingQuests.

(** How the [while] loop ends: with the [return] of the safety check, or
    because no quest remains. *)
Inductive LoopExit :=
| Circular (questsForNextRound : list Quest)
| Done (questTiers : list (list Quest)).

Fixpoint tier_loop (fuel : nat) (remainingQuests : list Quest)
    (processedQuestIds : list string) (questTiers : list (list Quest))
  : option LoopExit :=
  match remainingQuests with
  | [] => Some (Done questTiers)
  | _ :: _ =>
      match fuel with
      | 0 => None
      | S fuel =>
          let '(currentTier, questsForNextRound) :=
            round processedQuestIds remainingQuests in
          if (length currentTier =? 0)%nat
             && (0 <? length questsForNextRound)%nat
          then Some (Circular questsForNextRound)
          else
            tier_loop fuel questsForNextRound
              (foldl (λ s quest, set_add (id quest) s)
                     processedQuestIds currentTier)
              (questTiers ++ [currentTier])
      end
  end.

Definition outputPath : string := "./app/composables/questData.ts".

Definition decimal (n : nat) : string :=
  NilZero.string_of_uint (Nat.to_uint n).

(** [`- ${q.title} (Dependencies: ${q.dependencies.join(', ')})`] *)
Definition stuck_line (q : Quest) : ConsoleLine :=
  console_log ("- " +:+ title q +:+ " (Dependencies: "
                 +:+ String.concat ", " (dependencies q) +:+ ")").

(** [main], from the parsed [questMap] on: the argument lists the
    object's entries in the order of [Object.keys]. Every round of the
    loop places at least one of the remaining quests or leaves it, so
    their number bounds the rounds. *)
Definition main (questMap : list (string * RawData.RawQuest)) : option Run :=
  let out := [console_log "Reading questData.json..."] in
  let questTitles := questMap.*1 in
  let '(titleToIdMap, warnings) := first_pass questTitles in
  let out := out ++ warnings in
  let allQuests := second_pass questMap titleToIdMap in
  let out := out ++ [console_log "Sorting quests into tiers..."] in
  let remainingQuests := map_values allQuests in
  match tier_loop (length remainingQuests) remainingQuests [] [] with
  | None => None
  | Some (Circular questsForNextRound) =>
      Some {| console :=
                out ++ [console_error "Error: Circular dependency detected!";
                        console_error
                          "The following quests could not be sorted:"]
                    ++ (stuck_line <$> questsForNextRound);
              written := None |}
  | Some (Done questTiers) =>
      Some {| console :=
                out ++ [console_log
                          ("Sorted " +:+ decimal (length allQuests)
                             +:+ " quests into "
                             +:+ decimal (length questTiers) +:+ " tiers.");
                        console_log
                          ("Successfully generated: " +:+ outputPath)];
              written := Some questTiers |}
  end.

End GenerateTiers.

(** ** The worklist loop shared by the two traversals

    Both traversals run the same loop over a stack and a set of ids
    already seen; they differ in the ids they push for the current one. *)

Module Worklist.
Import Js.

Section Worklist.

(** The ids pushed when an id is taken for the first time, in the order
    of the [push] calls. *)
Variable pushed : string → list string.

Definition step (st : list string * list string)
  : option (list string * list string) :=
  let '(queue, seen) := st in
  match queue with
  | [] => None
  | currentId :: queue =>
      if set_has currentId seen then Some (queue, seen)
      else Some (foldl (λ q x, x :: q) queue (pushed currentId),
                 set_add currentId seen)
  end.

(** The edge relation the loop follows. *)
Definition edge (a b : string) : Prop := b ∈ pushed a.

(** The id an iteration starting in [st] processes (adds to the set and
    expands), if it does not skip. *)
Definition processes (st : list string * list string) : option string :=
  match st.1 with
  | [] => None
  | currentId :: _ => if set_has currentId st.2 then None else Some currentId
  end.

(** A termination measure: the stack height plus a weight for every
    budget entry whose id is not seen yet. *)
Definition unseen_weight (budget : list (string * nat)) (seen : list string)
  : nat :=
  sum_list ((λ e, if set_has e.1 seen then 0 else e.2) <$> budget).

Definition measure (budget : list (string * nat))
    (st : list string * list string) : nat :=
  length st.1 + unseen_weight budget st.2.

(** The loop invariant for a traversal started at [s]: the set has no
    duplicates, everything on the stack or in the set is reachable from
    [s], the start is on the stack or in the set, and the successors of
    the ids in the set are in the set or still on the stack. *)
Definition inv (s : string) (st : list string * list string) : Prop :=
  NoDup st.2
  ∧ (∀ x, x ∈ st.1 ∨ x ∈ st.2 → rtc edge s x)
  ∧ (s ∈ st.1 ∨ s ∈ st.2)
  ∧ (∀ v w, v ∈ st.2 → edge v w → w ∈ st.2 ∨ w ∈ st.1).

(** The part of the budget that belongs to one id. *)
Definition share (budget : list (string * nat)) (x : string) : nat :=
  sum_list ((λ e, if decide (e.1 = x) then e.2 else 0) <$> budget).

End Worklist.

End Worklist.

(** ** The notions the statements are phrased in *)

Module Notions.
Import Js QuestData UseQuests.

(** [depends_on m a b]: the quest stored under the id [a] in the map [m]
    lists [b] among its dependencies. *)
Definition depends_on (m : list (string * Quest)) (a b : string) : Prop :=
  ∃ q, map_get a m = Some q ∧ b ∈ dependencies q.

(** The dependency relation of a catalog, read through [questMap] as the
    composable does. *)
Definition direct_dep (questTiers : list (list Quest)) : relation string :=
  depends_on (questMap questTiers).

(** A catalog in which no two quests share an id. *)
Definition unique_ids (questTiers : list (list Quest)) : Prop :=
  NoDup (id <$> concat questTiers).

(** The dependency relation of the catalog itself, without the detour
    through [questMap]: some quest of the catalog has the id [a] and lists
    [b] among its dependencies. *)
Definition lists_dep (questTiers : list (list Quest)) : relation string :=
  λ a b, ∃ q, q ∈ concat questTiers ∧ id q = a ∧ b ∈ dependencies q.

(** The quest a catalog holds under an id. Ids are meant to be unique;
    should several quests share one, the last of them in the order of the
    tiers counts, as the last entry for a key does in [new Map]. *)
Definition catalog_quest (questTiers : list (list Quest)) (i : string)
  : option Quest :=
  last (filter (λ q, id q = i) (concat questTiers)).

(** The dependency relation of an arbitrary catalog: the quest held under
    [a] lists [b]. With unique ids this is [lists_dep]. *)
Definition catalog_dep (questTiers : list (list Quest)) : relation string :=
  λ a b, ∃ q, catalog_quest questTiers a = Some q ∧ b ∈ dependencies q.

(** The ids pushed by the two traversals. *)
Definition pushed_up (questTiers : list (list Quest)) (c : string)
  : list string :=
  match map_get c (questMap questTiers) with
  | Some quest => dependencies quest
  | None => []
  end.

Definition pushed_down (questTiers : list (list Quest)) (c : string)
  : list string :=
  id <$> dependants_of questTiers c.

Definition budget_up (questTiers : list (list Quest)) : list (string * nat) :=
  (λ e, (e.1, length (dependencies e.2))) <$> questMap questTiers.

Definition budget_down (questTiers : list (list Quest))
  : list (string * nat) :=
  q ← map_values (questMap questTiers); (λ d, (d, 1)) <$> dependencies q.

(** *** The tier sorter *)

(** [titleToIdMap] and [allQuests] as [main] builds them. *)
Definition titleToIdMap_of (questMap : list (string * RawData.RawQuest))
  : list (string * string) :=
  (GenerateTiers.first_pass questMap.*1).1.

Definition allQuests_of (questMap : list (string * RawData.RawQuest))
  : list (string * Quest) :=
  GenerateTiers.second_pass questMap (titleToIdMap_of questMap).

(** The entry of [allQuests] that the second pass makes of one entry of
    the input. *)
Definition resolve (titleToIdMap : list (string * string))
    (entry : string * RawData.RawQuest) : string * Quest :=
  (GenerateTiers.generateId entry.1,
   {| id := GenerateTiers.generateId entry.1;
      title := entry.1;
      url := RawData.url entry.2;
      dependencies := GenerateTiers.dependencyIds titleToIdMap entry.2 |}).

(** The resolved dependency graph: the dependency relation among the ids
    of [allQuests]. *)
Definition resolved_dep (questMap : list (string * RawData.RawQuest))
  : relation string :=
  depends_on (allQuests_of questMap).

Definition acyclic (R : relation string) : Prop := ∀ x, ¬ tc R x x.

(** The dependency relation among the titles of the input: [a] lists [b],
    and [b] is itself a title of the input. *)
Definition title_dep (questMap : list (string * RawData.RawQuest))
  : relation string :=
  λ a b, ∃ data, (a, data) ∈ questMap
                 ∧ b ∈ RawData.dependencies data
                 ∧ b ∈ questMap.*1.

(** No two titles of the input share a slug. *)
Definition distinct_slugs (questMap : list (string * RawData.RawQuest))
  : Prop :=
  ∀ a b, a ∈ questMap.*1 → b ∈ questMap.*1 →
         GenerateTiers.generateId a = GenerateTiers.generateId b → a = b.

(** The resolved graph, described from the input alone.

    The entry kept for a slug: of the entries whose titles have that slug,
    the last one. *)
Definition kept_entry (questMap : list (string * RawData.RawQuest))
    (i : string) : option (string * RawData.RawQuest) :=
  last (filter (λ entry, GenerateTiers.generateId entry.1 = i) questMap).

(** The quest an entry stands for: its id is the slug of the title, and
    its dependencies are the slugs of the listed titles that are titles of
    the input and have a non-empty slug, in the order listed. *)
Definition resolved_quest (questMap : list (string * RawData.RawQuest))
    (entry : string * RawData.RawQuest) : Quest :=
  {| id := GenerateTiers.generateId entry.1;
     title := entry.1;
     url := RawData.url entry.2;
     dependencies :=
       GenerateTiers.generateId
         <$> filter (λ d, d ∈ questMap.*1 ∧ GenerateTiers.generateId d ≠ "")
               (RawData.dependencies entry.2) |}.

(** [q] is the quest of the entry kept for its id. *)
Definition kept_quest (questMap : list (string * RawData.RawQuest))
    (q : Quest) : Prop :=
  ∃ entry, kept_entry questMap (id q) = Some entry
           ∧ q = resolved_quest questMap entry.

(** The edges of the resolved graph: the quest of the entry kept for [a]
    lists [b]. *)
Definition resolved_graph (questMap : list (string * RawData.RawQuest))
  : relation string :=
  λ a b, ∃ entry, kept_entry questMap a = Some entry
                  ∧ b ∈ dependencies (resolved_quest questMap entry).

(** [q] is one of the quests of tier [t]. *)
Definition in_tier (questTiers : list (list Quest)) (t : nat) (q : Quest)
  : Prop :=
  ∃ tier, questTiers !! t = Some tier ∧ q ∈ tier.

(** The id [d] belongs to a quest of a tier below [t]. *)
Definition placed_before (questTiers : list (list Quest)) (t : nat)
    (d : string) : Prop :=
  ∃ t' q, t' < t ∧ in_tier questTiers t' q ∧ id q = d.

(** Tier [t] is admissible for [q]: every dependency of [q] lies in a
    tier below [t]. *)
Definition ready (questTiers : list (list Quest)) (t : nat) (q : Quest)
  : Prop :=
  ∀ d, d ∈ dependencies q → placed_before questTiers t d.

(** The invariant of the [while] loop of [main] over the quests [all] it
    starts from. *)
Definition tiers_inv (all : list Quest)
    (remainingQuests : list Quest) (processedQuestIds : list string)
    (questTiers : list (list Quest)) : Prop :=
  concat questTiers ++ remainingQuests ≡ₚ all
  ∧ (∀ d, d ∈ processedQuestIds ↔ d ∈ id <$> concat questTiers)
  ∧ (∀ t q, in_tier questTiers t q →
            ready questTiers t q ∧ ∀ t', t' < t → ¬ ready questTiers t' q)
  ∧ (∀ q, q ∈ remainingQuests →
          ∀ t', t' < length questTiers → ¬ ready questTiers t' q).

(** The persisted values that must count as no saved progress: the key
    is absent, or its text is not JSON, or it is JSON for something that
    is not an array ([null] included). *)
Definition no_saved_array (JSON_parse : string → Completion Json)
    (getItem : Completion (option string)) : Prop :=
  getItem = Normal None
  ∨ ∃ text, getItem = Normal (Some text)
            ∧ ((∃ e, JSON_parse text = Throw e)
               ∨ JSON_parse text = Normal JNull
               ∨ ∃ v, JSON_parse text = Normal v ∧ Array_isArray v = false).

End Notions.

(** ** Sample data *)

Module Samples.
Import Js QuestData UseQuests.

Definition quest (i : string) (deps : list string) : Quest :=
  {| id := i; title := i; url := ""; dependencies := deps |}.

(** The diamond: [b] and [c] need [a], [d] needs [b] and [c]. *)
Definition diamond : list (list Quest) :=
  [[quest "a" []]; [quest "b" ["a"]; quest "c" ["a"]]; [quest "d" ["b"; "c"]]].


Definition raw (deps : list string) : RawData.RawQuest :=
  {| RawData.url := "https://arcraiders.wiki/wiki/Quests";
     RawData.dependencies := deps;
     RawData.unlocks := [] |}.

(** Three scraped quests in a row; one dependency title is unknown. *)
Definition scraped : list (string * RawData.RawQuest) :=
  [("A Bad Feeling", raw []);
   ("Bees!", raw ["A Bad Feeling"; "No Such Quest"]);
   ("What's Next", raw ["Bees!"])].

(** Tier numbers for the titles of [scraped]. *)
Definition scraped_title_rank (t : string) : nat :=
  if decide (t = "What's Next") then 2
  else if decide (t = "Bees!") then 1
  else 0.

(** Two titles with the same slug. *)
Definition colliding : list (string * RawData.RawQuest) :=
  [("Bees", raw []); ("Bees!", raw [])].

(** A title-level chain whose slugs collide into a cycle. *)
Definition looping : list (string * RawData.RawQuest) :=
  [("Bees", raw []); ("X", raw ["Bees"]); ("Bees!", raw ["X"])].

(** Its titles, numbered along the chain. *)
Definition looping_rank (t : string) : nat :=
  if decide (t = "Bees!") then 2
  else if decide (t = "X") then 1
  else 0.

(** Two titles with the same slug, the second listing the first. *)
Definition shadowed : list (string * RawData.RawQuest) :=
  [("Bees", raw []); ("Bees!", raw ["Bees"])].

Definition shadowed_rank (t : string) : nat :=
  if decide (t = "Bees!") then 1 else 0.

(** [JSON.parse] on a handful of texts. *)
Definition parse_sample (text : string) : Completion Json :=
  if decide (text = "null") then Normal JNull
  else if decide (text = "{}") then Normal (JObject [])
  else if decide (text = "[]") then Normal (JArray [])
  else if decide (text = "7") then Normal (JNumber "7")
  else Throw "SyntaxError".

End Samples.

(** ** Persisting the progress (the [watch] of [useQuests]) *)

Module Persistence.

Section Watch.

(** [JSON.stringify] on an array of strings. *)
Variable JSON_stringify : list string → string.

(** [Array.from(newSet)] *)
Definition Array_from (newSet : list string) : list string := newSet.

(** The callback of the [watch]: the text it stores under
    ['arc-raiders-progress']. *)
Definition persisted (newSet : list string) : string :=
  let asArray := Array_from newSet in
  JSON_stringify asArray.

End Watch.

End Persistence.

(** ** The [QuestNode] component *)

Module QuestNode.

Record Props := {
  title : string;
  wikiUrl : option string;
  questId : string;
  completed : bool;
  available : bool;
  dependantsCompleted : bool;
  searchQuery : string
}.

Inductive Emit :=
| toggle (questId : string)
| complete_prerequisites (questId : string)
| uncomplete_dependants (questId : string).

(** An entry of the context menu. *)
Record MenuItem := {
  label : string;
  icon : string;
  onSelect : option Emit;
  to : option string;
  target : option string
}.

Definition isDisabled (props : Props) : bool :=
  negb (completed props) && negb (available props).

(** Truthiness of the optional [wikiUrl]. *)
Definition truthy (v : option string) : bool :=
  match v with
  | Some s => bool_decide (s ≠ "")
  | None => false
  end.

(** [menuItems]: the candidate entries, [undefined] ones filtered out. *)
Definition menuItems (props : Props) : list (list MenuItem) :=
  (λ group : list (option MenuItem), omap (λ item, item) group) <$>
  [[ (if isDisabled props
      then Some {| label := "Fast-forward here";
                   icon := "i-heroicons-forward";
                   onSelect := Some (complete_prerequisites (questId props));
                   to := None; target := None |}
      else None);
     (if dependantsCompleted props
      then Some {| label := "Rewind here";
                   icon := "i-heroicons-backward";
                   onSelect := Some (uncomplete_dependants (questId props));
                   to := None; target := None |}
      else None);
     (if truthy (wikiUrl props)
      then Some {| label := "View on arcraiders.wiki";
                   icon := "i-heroicons-book-open";
                   onSelect := None;
                   to := wikiUrl props; target := Some "_blank" |}
      else None) ]].

Definition hasMenuItems (props : Props) : bool :=
  (0 <? length (concat (menuItems props)))%nat.

(** The click handler of the card,
    [!isDisabled && !dependantsCompleted && (model = !model)]: assigning to
    [model] emits [toggle]. The checkbox inside the card is bound to the
    same [model] but carries [pointer-events-none], so a pointer click
    reaches this handler only; a toggle of the checkbox made without the
    pointer is outside this model. *)
Definition onClick (props : Props) : option Emit :=
  if negb (isDisabled props) && negb (dependantsCompleted props)
  then Some (toggle (questId props))
  else None.

End QuestNode.

(** ** The page: how the cards are fed and their events handled *)

Module IndexPage.
Import Js UseQuests.

Section Page.

Variable questTiers : list (list QuestData.Quest).

(** The props a card gets for a node of [reactiveNodes]. *)
Definition node_props (quest : QuestData.Quest)
    (completedQuests : list string) (searchQuery : string)
  : QuestNode.Props :=
  {| QuestNode.title := QuestData.title quest;
     QuestNode.wikiUrl := Some (QuestData.url quest);
     QuestNode.questId := QuestData.id quest;
     QuestNode.completed := set_has (QuestData.id quest) completedQuests;
     QuestNode.available := getQuestAvailability quest completedQuests;
     QuestNode.dependantsCompleted :=
       anyDependantCompleted questTiers quest completedQuests;
     QuestNode.searchQuery := searchQuery |}.

(** The listeners [@toggle], [@complete-prerequisites] and
    [@uncomplete-dependants]. *)
Definition handle (e : QuestNode.Emit) (completedQuests : list string)
  : option (list string) :=
  match e with
  | QuestNode.toggle i => Some (toggleQuest i completedQuests)
  | QuestNode.complete_prerequisites i =>
      completeQuestPrerequisites questTiers i completedQuests
  | QuestNode.uncomplete_dependants i =>
      uncompleteDependants questTiers i completedQuests
  end.

(** A click on the card of [quest]. *)
Definition click (quest : QuestData.Quest) (completedQuests : list string)
    (searchQuery : string) : option (list string) :=
  match QuestNode.onClick (node_props quest completedQuests searchQuery) with
  | Some e => handle e completedQuests
  | None => Some completedQuests
  end.

End Page.

End IndexPage.

(** ** Further notions *)

Module MoreNotions.
Import Js QuestData UseQuests Notions.

(** A completed set in which every completed quest has all its
    dependencies completed. *)
Definition deps_closed (questTiers : list (list Quest))
    (completedQuests : list string) : Prop :=
  ∀ x d, x ∈ completedQuests → direct_dep questTiers x d →
         d ∈ completedQuests.


(** The characters of a slug: lower-case letters, digits and the
    underscore. *)
Definition slug_char (c : ascii) : bool :=
  let n := nat_of_ascii c in
  ((97 <=? n)%nat && (n <=? 122)%nat)
  || ((48 <=? n)%nat && (n <=? 57)%nat)
  || (n =? 95)%nat.

(** Letters and digits of either case. *)
Definition alnum_char (c : ascii) : bool :=
  let n := nat_of_ascii c in
  ((97 <=? n)%nat && (n <=? 122)%nat)
  || ((65 <=? n)%nat && (n <=? 90)%nat)
  || ((48 <=? n)%nat && (n <=? 57)%nat).

Definition underscore : ascii := ascii_of_nat 95.

End MoreNotions.

(** ** Further sample data *)

Module MoreSamples.
Import QuestData UseQuests.


(** A quest that lists itself. *)
Definition self_dependent : list (list Quest) :=
  [[Samples.quest "a" ["a"]]].

Definition quote : string := String (ascii_of_nat 34) EmptyString.

(** [JSON.stringify] on arrays of strings that need no escapes. *)
Definition stringify_sample (l : list string) : string :=
  "[" +:+ String.concat "," ((λ x, quote +:+ x +:+ quote) <$> l) +:+ "]".

(** Reading back the elements of such a text: [cur] is the element being
    read, if any. *)
Fixpoint elements_sample (cur : option string) (text : string) : list string :=
  match text with
  | EmptyString => []
  | String c text =>
      if decide (c = ascii_of_nat 34) then
        match cur with
        | Some x => String.rev x :: elements_sample None text
        | None => elements_sample (Some EmptyString) text
        end
      else
        match cur with
        | Some x => elements_sample (Some (String c x)) text
        | None => elements_sample None text
        end
  end.

Definition parse_array_sample (text : string) : Completion Json :=
  match text with
  | String "[" _ => Normal (JArray (elements_sample None text))
  | _ => Throw "SyntaxError"
  end.

End MoreSamples.

(** ** [generateId] on arbitrary titles

    [GenerateTiers.generateId] takes titles of code units below 256. A
    JavaScript string is a sequence of 16-bit code units, and from code
    units of 256 and more [toLowerCase] can produce ASCII letters: it
    turns U+0130 into [i] followed by U+0307, and the Kelvin sign U+212A
    into [k]. Here the steps of [generateId] are given on sequences of
    code units, which is what the regular expressions of the source (none
    has the [u] flag) and [trim] work on; [toLowerCase] itself is a
    parameter. *)

Module Utf16.

(** The class of [/'/g]. *)
Definition is_apostrophe (u : N) : bool := (u =? 39)%N.

(** The class [[^a-z0-9 ]]. *)
Definition not_lower_alnum_space (u : N) : bool :=
  negb (((97 <=? u) && (u <=? 122))
        || ((48 <=? u) && (u <=? 57))
        || (u =? 32))%N.

(** The white space of [trim] and of [\s]: U+0009 to U+000D, U+0020,
    U+00A0, U+1680, U+2000 to U+200A, U+2028, U+2029, U+202F, U+205F,
    U+3000 and U+FEFF. *)
Definition is_white_space (u : N) : bool :=
  (((9 <=? u) && (u <=? 13)) || (u =? 32) || (u =? 160) || (u =? 5760)
   || ((8192 <=? u) && (u <=? 8202)) || (u =? 8232) || (u =? 8233)
   || (u =? 8239) || (u =? 8287) || (u =? 12288) || (u =? 65279))%N.

(** [s.replace(/[class]/g, '')] *)
Definition remove_all (class : N → bool) (s : list N) : list N :=
  filter (λ u, class u = false) s.

Fixpoint trimStart (s : list N) : list N :=
  match s with
  | [] => []
  | u :: s' => if is_white_space u then trimStart s' else s
  end.

Definition trim (s : list N) : list N :=
  reverse (trimStart (reverse (trimStart s))).

(** [s.replace(/\s+/g, '_')] *)
Fixpoint replace_space_runs (in_run : bool) (s : list N) : list N :=
  match s with
  | [] => []
  | u :: s =>
      if is_white_space u then
        if in_run then replace_space_runs true s
        else 95%N :: replace_space_runs true s
      else u :: replace_space_runs false s
  end.

Section Slug.

(** [String.prototype.toLowerCase] *)
Variable toLowerCase : list N → list N.

Definition generateId (title : list N) : list N :=
  replace_space_runs false
    (trim
       (remove_all not_lower_alnum_space
          (remove_all is_apostrophe
             (toLowerCase title)))).

End Slug.

(** *** Notions *)

Definition between (lo hi u : N) : bool := ((lo <=? u) && (u <=? hi))%N.

(** The code units that can occur in a slug before the spaces are
    replaced: lower-case ASCII letters, digits and the space. *)
Definition slug_kept (u : N) : bool :=
  between 97 122 u || between 48 57 u || (u =? 32)%N.

(** What a slug keeps of the lower-case form of one code unit: the
    lower-case letter of a capital, a lower-case letter, digit or space
    itself, [i] of U+0130, [k] of U+212A, and nothing of any other
    unit. *)
Definition slug_image (u : N) : list N :=
  if between 65 90 u then [(u + 32)%N]
  else if slug_kept u then [u]
  else if (u =? 304)%N then [105%N]
  else if (u =? 8490)%N then [107%N]
  else [].

(** All that [generateId] needs of [toLowerCase]: the lower-case ASCII
    letters, digits and spaces of its result are, in order, those that the
    code units of its argument give rise to. Beyond ASCII, the only code
    points that JavaScript's [toLowerCase] turns into text with an ASCII
    letter, digit or space are U+0130 and U+212A. *)
Definition lowers_like_js (toLowerCase : list N → list N) : Prop :=
  ∀ s, filter (λ u, slug_kept u = true) (toLowerCase s) = s ≫= slug_image.

(** The code units that leave a letter or a digit in the slug. *)
Definition slug_source (u : N) : bool :=
  between 65 90 u || between 97 122 u || between 48 57 u
  || (u =? 304)%N || (u =? 8490)%N.

(** The code units of a string of characters below 256. *)
Definition units (s : string) : list N :=
  N_of_ascii <$> list_ascii_of_string s.

(** *** Sample data *)

(** A lower-casing for examples: JavaScript's on ASCII, on U+0130 and on
    U+212A; every other code unit is left as it is. *)
Definition lower_unit (u : N) : list N :=
  if between 65 90 u then [(u + 32)%N]
  else if (u =? 304)%N then [105%N; 775%N]
  else if (u =? 8490)%N then [107%N]
  else [u].

Definition lower_sample (s : list N) : list N := s ≫= lower_unit.

End Utf16.

(** * Properties *)

(** ** The containers *)

Module JsFacts.
Import Js.

Lemma NoDup_snoc {A} (x : A) (l : list A) :
  NoDup l → x ∉ l → NoDup (l ++ [x]).
Proof.
  intros Hl Hx. apply NoDup_app. split_and!; [done| |apply NoDup_singleton].
  intros y Hy ->%list_elem_of_singleton. done.
Qed.

Lemma set_has_true x s : set_has x s = true ↔ x ∈ s.
Proof. apply bool_decide_eq_true. Qed.

Lemma set_has_false x s : set_has x s = false ↔ x ∉ s.
Proof. apply bool_decide_eq_false. Qed.

Lemma elem_of_set_add y x s : y ∈ set_add x s ↔ y = x ∨ y ∈ s.
Proof.
  unfold set_add. destruct (set_has x s) eqn:E.
  - apply set_has_true in E. split; [auto|]. intros [->|?]; done.
  - rewrite elem_of_app, list_elem_of_singleton. tauto.
Qed.

Lemma NoDup_set_add x s : NoDup s → NoDup (set_add x s).
Proof.
  intros Hs. unfold set_add. destruct (set_has x s) eqn:E; [done|].
  apply set_has_false in E. by apply NoDup_snoc.
Qed.

Lemma set_add_fresh x s : x ∉ s → set_add x s = s ++ [x].
Proof. intros H. apply set_has_false in H. unfold set_add. by rewrite H. Qed.

Lemma set_add_present x s : x ∈ s → set_add x s = s.
Proof. intros H. apply set_has_true in H. unfold set_add. by rewrite H. Qed.

Lemma elem_of_set_delete y x s : y ∈ set_delete x s ↔ y ≠ x ∧ y ∈ s.
Proof. unfold set_delete. by rewrite list_elem_of_filter. Qed.

Lemma NoDup_set_delete x s : NoDup s → NoDup (set_delete x s).
Proof. apply NoDup_filter. Qed.

Lemma set_delete_absent x s : x ∉ s → set_delete x s = s.
Proof.
  unfold set_delete. induction s as [|y s IH]; [done|].
  rewrite not_elem_of_cons. intros [Hne Hs].
  rewrite filter_cons_True by done. f_equal. auto.
Qed.

Lemma elem_of_set_union y a b : y ∈ set_union a b ↔ y ∈ a ∨ y ∈ b.
Proof.
  unfold set_union. revert a. induction b as [|x b IH]; intros a; simpl.
  - rewrite elem_of_nil. tauto.
  - rewrite IH, elem_of_set_add, elem_of_cons. tauto.
Qed.

Lemma NoDup_set_union a b : NoDup a → NoDup (set_union a b).
Proof.
  unfold set_union. revert a. induction b as [|x b IH]; intros a Ha; simpl.
  - done.
  - apply IH, NoDup_set_add, Ha.
Qed.

Lemma set_union_app a b1 b2 :
  set_union a (b1 ++ b2) = set_union (set_union a b1) b2.
Proof. unfold set_union. apply foldl_app. Qed.

(** Adding what is already there changes nothing, not even the order. *)
Lemma set_union_absorb a b : (∀ x, x ∈ b → x ∈ a) → set_union a b = a.
Proof.
  unfold set_union. induction b as [|x b IH]; intros Hb; simpl; [done|].
  rewrite set_add_present by (apply Hb; left).
  apply IH. intros y Hy. apply Hb. by right.
Qed.

(** The union starts with [this], in its order. *)
Lemma set_union_extends a b : ∃ r, set_union a b = a ++ r.
Proof.
  unfold set_union. revert a. induction b as [|x b IH]; intros a; simpl.
  - exists []. by rewrite app_nil_r.
  - destruct (IH (set_add x a)) as [r Hr]. rewrite Hr.
    unfold set_add. destruct (set_has x a).
    + by exists r.
    + exists (x :: r). by rewrite <- app_assoc.
Qed.

Lemma set_union_fresh a r : NoDup (a ++ r) → set_union a r = a ++ r.
Proof.
  unfold set_union. revert a. induction r as [|x r IH]; intros a Hnd; simpl.
  - by rewrite app_nil_r.
  - assert (x ∉ a) as Hx.
    { apply NoDup_app in Hnd as (_ & Hd & _). intros Hin.
      apply (Hd x Hin). left. }
    rewrite set_add_fresh by done.
    rewrite (IH (a ++ [x])); rewrite <- app_assoc; done.
Qed.

Lemma elem_of_set_from y l : y ∈ set_from l ↔ y ∈ l.
Proof.
  change (set_from l) with (set_union [] l).
  rewrite elem_of_set_union, elem_of_nil. tauto.
Qed.

Lemma NoDup_set_from l : NoDup (set_from l).
Proof.
  change (set_from l) with (set_union [] l).
  apply NoDup_set_union, NoDup_nil_2.
Qed.

(** Copying a set gives the same elements in the same order. *)
Lemma set_from_NoDup l : NoDup l → set_from l = l.
Proof.
  intros Hl. change (set_from l) with (set_union [] l).
  by rewrite set_union_fresh.
Qed.

Lemma elem_of_set_difference y a b :
  y ∈ set_difference a b ↔ y ∈ a ∧ y ∉ b.
Proof.
  unfold set_difference. rewrite list_elem_of_filter, set_has_false. tauto.
Qed.

Lemma NoDup_set_difference a b : NoDup a → NoDup (set_difference a b).
Proof. apply NoDup_filter. Qed.

(** *** Maps *)

Lemma map_get_set {V} k k' (v : V) m :
  map_get k' (map_set k v m) = if decide (k = k') then Some v else map_get k' m.
Proof.
  induction m as [|[k0 v0] m IH]; simpl.
  - destruct (decide (k = k')); done.
  - destruct (decide (k0 = k)) as [->|Hne]; simpl.
    + destruct (decide (k = k')); done.
    + destruct (decide (k0 = k')) as [->|Hne'].
      * rewrite decide_False by done. done.
      * done.
Qed.

Lemma map_keys_set {V} k (v : V) m :
  map_keys (map_set k v m)
  = if bool_decide (k ∈ map_keys m) then map_keys m else map_keys m ++ [k].
Proof.
  unfold map_keys. induction m as [|[k0 v0] m IH]; csimpl; [done|].
  destruct (decide (k0 = k)) as [->|Hne]; csimpl.
  - rewrite bool_decide_eq_true_2 by left. done.
  - rewrite IH. destruct (decide (k ∈ m.*1)) as [Hin|Hin].
    + rewrite !bool_decide_eq_true_2; [done|by right|done].
    + rewrite !bool_decide_eq_false_2; [done| |done].
      rewrite not_elem_of_cons. done.
Qed.

Lemma NoDup_map_keys_set {V} k (v : V) m :
  NoDup (map_keys m) → NoDup (map_keys (map_set k v m)).
Proof.
  intros Hm. rewrite map_keys_set. case_bool_decide; [done|].
  by apply NoDup_snoc.
Qed.

Lemma NoDup_map_keys_from {V} (entries : list (string * V)) :
  NoDup (map_keys (map_from entries)).
Proof.
  unfold map_from.
  assert (∀ m : list (string * V), NoDup (map_keys m) →
    NoDup (map_keys (foldl (λ m kv, map_set kv.1 kv.2 m) m entries))) as H.
  { induction entries as [|[k v] l IH]; intros m Hm; simpl; [done|].
    apply IH, NoDup_map_keys_set, Hm. }
  apply H, NoDup_nil_2.
Qed.

Lemma map_get_Some_elem {V} k (v : V) m : map_get k m = Some v → (k, v) ∈ m.
Proof.
  induction m as [|[k0 v0] m IH]; simpl; [done|].
  destruct (decide (k0 = k)) as [->|Hne].
  - intros [= ->]. left.
  - intros H. right. auto.
Qed.

Lemma map_get_elem {V} k (v : V) m :
  NoDup (map_keys m) → (k, v) ∈ m → map_get k m = Some v.
Proof.
  unfold map_keys. induction m as [|[k0 v0] m IH]; simpl.
  - intros _ H. by apply elem_of_nil in H.
  - rewrite NoDup_cons. intros [Hk0 Hnd] [[= -> ->]|Hin]%elem_of_cons.
    + by rewrite decide_True.
    + destruct (decide (k0 = k)) as [->|Hne]; [|auto].
      exfalso. apply Hk0. apply list_elem_of_fmap. by exists (k, v).
Qed.

Lemma map_get_None {V} k (m : list (string * V)) :
  map_get k m = None ↔ k ∉ map_keys m.
Proof.
  unfold map_keys. induction m as [|[k0 v0] m IH]; simpl.
  - rewrite elem_of_nil. tauto.
  - rewrite not_elem_of_cons. destruct (decide (k0 = k)) as [->|Hne].
    + split; [done|]. intros [? _]. done.
    + rewrite IH. split; [intros ?; split; [congruence|done]|tauto].
Qed.

Lemma map_get_is_Some {V} k (m : list (string * V)) :
  is_Some (map_get k m) ↔ k ∈ map_keys m.
Proof.
  rewrite <- not_eq_None_Some, map_get_None.
  destruct (decide (k ∈ map_keys m)); tauto.
Qed.

(** What a lookup in [new Map(entries)] finds: the last entry for the
    key. *)
Lemma map_get_from_snoc {V} (entries : list (string * V)) k v k' :
  map_get k' (map_from (entries ++ [(k, v)]))
  = if decide (k = k') then Some v else map_get k' (map_from entries).
Proof. unfold map_from. rewrite foldl_app. simpl. apply map_get_set. Qed.

Lemma map_get_from_Some {V} (entries : list (string * V)) k v :
  map_get k (map_from entries) = Some v → (k, v) ∈ entries.
Proof.
  induction entries as [|[k0 v0] l IH] using rev_ind; [done|].
  rewrite map_get_from_snoc, elem_of_app, list_elem_of_singleton.
  destruct (decide (k0 = k)) as [->|Hne]; [intros [= ->]; by right|].
  intros H. left. auto.
Qed.

Lemma map_get_from_last_filter {A V} (key : A → string) (val : A → V)
    (l : list A) k :
  map_get k (map_from ((λ a, (key a, val a)) <$> l))
  = val <$> last (filter (λ a, key a = k) l).
Proof.
  induction l as [|a l IH] using rev_ind; [done|].
  rewrite fmap_app. csimpl. rewrite map_get_from_snoc, filter_app, IH.
  destruct (decide (key a = k)) as [Hk|Hk].
  - rewrite filter_cons_True, filter_nil by done. by rewrite last_snoc.
  - rewrite filter_cons_False, filter_nil by done. by rewrite app_nil_r.
Qed.

Lemma map_keys_from {V} (entries : list (string * V)) k :
  k ∈ map_keys (map_from entries) ↔ k ∈ entries.*1.
Proof.
  rewrite <- map_get_is_Some.
  induction entries as [|[k0 v0] l IH] using rev_ind.
  - simpl. rewrite elem_of_nil. split; [intros [? [=]]|done].
  - rewrite map_get_from_snoc, fmap_app, elem_of_app. simpl.
    rewrite list_elem_of_singleton.
    destruct (decide (k0 = k)) as [->|Hne].
    + split; [by right|by eexists].
    + rewrite IH. split; [by left|]. intros [?|?]; [done|congruence].
Qed.

(** With pairwise distinct keys nothing is overwritten. *)
Lemma map_from_NoDup {V} (entries : list (string * V)) :
  NoDup entries.*1 → map_from entries = entries.
Proof.
  induction entries as [|[k0 v0] l IH] using rev_ind; [done|].
  rewrite fmap_app. simpl. intros (Hl & Hd & _)%NoDup_app.
  unfold map_from. rewrite foldl_app. simpl. fold (map_from l).
  rewrite IH by done. clear IH.
  assert (k0 ∉ l.*1) as Hk.
  { intros Hin. apply (Hd k0 Hin). left. }
  clear Hd Hl. induction l as [|[k1 v1] l IH]; simpl; [done|].
  simpl in Hk. rewrite not_elem_of_cons in Hk. destruct Hk as [Hne Hk].
  rewrite decide_False by done. f_equal. auto.
Qed.

(** *** Flattening *)

Lemma elem_of_concat {A} (x : A) (ls : list (list A)) :
  x ∈ concat ls ↔ ∃ l, l ∈ ls ∧ x ∈ l.
Proof.
  induction ls as [|l ls IH]; simpl.
  - rewrite elem_of_nil. split; [done|]. by intros (? & []%elem_of_nil & _).
  - rewrite elem_of_app, IH. split.
    + intros [Hx|(l' & Hl' & Hx)]; [exists l|exists l']; split; try done.
      * left.
      * by right.
    + intros (l' & [->|Hl']%elem_of_cons & Hx); [by left|right; eauto].
Qed.

(** *** Loops *)

Lemma while_exit {St} (step : St → option St) fuel st st' :
  while step fuel st = Some st' → step st' = None.
Proof.
  revert st. induction fuel as [|fuel IH]; intros st; simpl.
  - destruct (step st) eqn:E; [done|]. intros [= <-]. done.
  - destruct (step st) eqn:E; [apply IH|]. intros [= <-]. done.
Qed.

Lemma while_invariant {St} (step : St → option St) (I : St → Prop) :
  (∀ st st', I st → step st = Some st' → I st') →
  ∀ fuel st st', I st → while step fuel st = Some st' → I st'.
Proof.
  intros Hstep. induction fuel as [|fuel IH]; intros st st' Hst; simpl.
  - destruct (step st) eqn:E; [done|]. by intros [= <-].
  - destruct (step st) as [st1|] eqn:E; [|by intros [= <-]].
    apply IH. eapply Hstep; eauto.
Qed.

(** When the loop ends within the bound, its trace ends in the state it
    returns. *)
Lemma trace_last {St} (step : St → option St) fuel st st' :
  while step fuel st = Some st' → last (trace step fuel st) = Some st'.
Proof.
  revert st. induction fuel as [|fuel IH]; intros st; simpl.
  - destruct (step st); [done|]. by intros [= <-].
  - destruct (step st) as [st1|] eqn:E; [|by intros [= <-]].
    intros H. apply IH in H. destruct (trace step fuel st1) eqn:Et; [|done].
    by destruct fuel; simpl in Et; destruct (step st1).
Qed.

(** A measure that every iteration decreases bounds the fuel needed. *)
Lemma while_terminates {St} (step : St → option St) (μ : St → nat) :
  (∀ st st', step st = Some st' → μ st' < μ st) →
  ∀ fuel st, μ st ≤ fuel → is_Some (while step fuel st).
Proof.
  intros Hdec. induction fuel as [|fuel IH]; intros st Hle; simpl.
  - destruct (step st) as [st1|] eqn:E; [|by eexists].
    apply Hdec in E. lia.
  - destruct (step st) as [st1|] eqn:E; [|by eexists].
    apply IH. apply Hdec in E. lia.
Qed.

End JsFacts.

(** ** The worklist loop *)

Module WorklistFacts.
Import Js JsFacts Worklist.

Lemma foldl_push (queue l : list string) :
  foldl (λ q x, x :: q) queue l = reverse l ++ queue.
Proof.
  revert queue. induction l as [|x l IH]; intros queue; simpl; [done|].
  rewrite IH, reverse_cons, <- app_assoc. done.
Qed.

Section Facts.

Variable pushed : string → list string.

Lemma step_skip c queue seen :
  c ∈ seen → step pushed (c :: queue, seen) = Some (queue, seen).
Proof. intros H. apply set_has_true in H. simpl. by rewrite H. Qed.

Lemma step_process c queue seen :
  c ∉ seen →
  step pushed (c :: queue, seen)
  = Some (reverse (pushed c) ++ queue, seen ++ [c]).
Proof.
  intros H. simpl. rewrite set_add_fresh, foldl_push by done.
  apply set_has_false in H. by rewrite H.
Qed.

(** *** Termination *)

Lemma unseen_weight_add budget c seen :
  c ∉ seen →
  unseen_weight budget (seen ++ [c]) + share budget c
  = unseen_weight budget seen.
Proof.
  intros Hc. unfold unseen_weight, share.
  induction budget as [|[u w] budget IH]; csimpl; [done|].
  destruct (decide (u = c)) as [->|Hne].
  - assert (set_has c (seen ++ [c]) = true) as ->.
    { apply set_has_true, elem_of_app. right. left. }
    assert (set_has c seen = false) as -> by by apply set_has_false.
    lia.
  - destruct (decide (u ∈ seen)) as [Hu|Hu].
    + assert (set_has u (seen ++ [c]) = true) as ->.
      { apply set_has_true, elem_of_app. by left. }
      assert (set_has u seen = true) as -> by by apply set_has_true.
      lia.
    + assert (set_has u (seen ++ [c]) = false) as ->.
      { apply set_has_false. rewrite elem_of_app, list_elem_of_singleton.
        tauto. }
      assert (set_has u seen = false) as -> by by apply set_has_false.
      lia.
Qed.

Section Bounded.

Variable budget : list (string * nat).
Hypothesis within_budget : ∀ c, length (pushed c) ≤ share budget c.

Lemma step_decreases st st' :
  step pushed st = Some st' → measure budget st' < measure budget st.
Proof.
  destruct st as [[|c queue] seen]; [done|].
  destruct (decide (c ∈ seen)) as [Hc|Hc].
  - rewrite step_skip by done. intros [= <-]. unfold measure. simpl. lia.
  - rewrite step_process by done. intros [= <-]. unfold measure. simpl.
    rewrite length_app, length_reverse.
    pose proof (unseen_weight_add budget c seen Hc).
    pose proof (within_budget c). lia.
Qed.

Lemma loop_terminates fuel st :
  measure budget st ≤ fuel → is_Some (while (step pushed) fuel st).
Proof. apply while_terminates, step_decreases. Qed.

End Bounded.

(** *** What the loop computes *)

Lemma inv_init s : inv pushed s ([s], []).
Proof.
  split_and!; simpl.
  - apply NoDup_nil_2.
  - intros x [->%list_elem_of_singleton|[]%elem_of_nil]. done.
  - left. left.
  - intros v w []%elem_of_nil.
Qed.

Lemma inv_step s st st' :
  inv pushed s st → step pushed st = Some st' → inv pushed s st'.
Proof.
  destruct st as [[|c queue] seen]; [done|].
  intros (Hnd & Hreach & Hstart & Hclosed).
  simpl in Hnd, Hreach, Hstart, Hclosed.
  destruct (decide (c ∈ seen)) as [Hc|Hc].
  - rewrite step_skip by done. intros [= <-].
    split_and!; simpl; [done| | |].
    + intros x [?|?]; apply Hreach; [left; by right|by right].
    + destruct Hstart as [[->|?]%elem_of_cons|?]; auto.
    + intros v w Hv Hvw.
      destruct (Hclosed v w Hv Hvw) as [?|[->|?]%elem_of_cons]; auto.
  - rewrite step_process by done. intros [= <-].
    assert (rtc (edge pushed) s c) as Hsc by (apply Hreach; left; left).
    split_and!; simpl.
    + by apply NoDup_snoc.
    + intros x. rewrite !elem_of_app, elem_of_reverse, list_elem_of_singleton.
      intros [[Hx|Hx]|[Hx| ->]]; [|apply Hreach..|done].
      * eapply rtc_r; [exact Hsc|exact Hx].
      * left. by right.
      * by right.
    + rewrite !elem_of_app, list_elem_of_singleton.
      destruct Hstart as [[->|?]%elem_of_cons|?]; auto.
    + intros v w. rewrite !elem_of_app, elem_of_reverse, list_elem_of_singleton.
      intros [Hv| ->] Hvw; [|auto].
      destruct (Hclosed v w Hv Hvw) as [?|[->|?]%elem_of_cons]; auto.
      left. right. by apply list_elem_of_singleton.
Qed.

(** When the stack is empty the set is exactly what is reachable. *)
Lemma inv_final s seen x :
  inv pushed s ([], seen) → x ∈ seen ↔ rtc (edge pushed) s x.
Proof.
  intros (_ & Hreach & Hstart & Hclosed). simpl in *. split.
  - intros Hx. apply Hreach. by right.
  - assert (s ∈ seen) as Hs.
    { destruct Hstart as [[]%elem_of_nil|?]. done. }
    assert (∀ a b, rtc (edge pushed) a b → a ∈ seen → b ∈ seen) as Hcl.
    { intros a b Hab. induction Hab as [|a b c Hab _ IH]; [done|].
      intros Ha. apply IH.
      destruct (Hclosed a b Ha Hab) as [?|[]%elem_of_nil]. done. }
    intros Hrtc. by apply (Hcl s x).
Qed.

Lemma loop_result fuel s st :
  while (step pushed) fuel ([s], []) = Some st →
  st.1 = [] ∧ NoDup st.2 ∧ ∀ x, x ∈ st.2 ↔ rtc (edge pushed) s x.
Proof.
  intros Hrun.
  pose proof (while_exit _ _ _ _ Hrun) as Hexit.
  pose proof (while_invariant _ (inv pushed s) (inv_step s) _ _ _
                (inv_init s) Hrun) as Hinv.
  destruct st as [[|c queue] seen].
  - split_and!; [done|apply Hinv|]. intros x. by apply inv_final.
  - simpl in Hexit. destruct (set_has c seen); done.
Qed.

(** *** Every id is processed at most once *)

Lemma trace_processes_once fuel queue seen :
  NoDup seen →
  NoDup (seen ++ omap (processes) (trace (step pushed) fuel (queue, seen))).
Proof.
  revert queue seen. induction fuel as [|fuel IH]; intros queue seen Hnd.
  - destruct queue as [|c queue]; simpl; [by rewrite app_nil_r|].
    unfold processes. simpl. destruct (set_has c seen) eqn:E; simpl.
    + by rewrite app_nil_r.
    + apply set_has_false in E. by apply NoDup_snoc.
  - destruct queue as [|c queue]; [simpl; by rewrite app_nil_r|].
    destruct (decide (c ∈ seen)) as [Hc|Hc].
    + pose proof (step_skip c queue seen Hc) as Hs.
      cbn [trace]. rewrite Hs. cbn [omap list_omap].
      unfold processes at 1. simpl.
      apply set_has_true in Hc. rewrite Hc. by apply IH.
    + pose proof (step_process c queue seen Hc) as Hs.
      cbn [trace]. rewrite Hs. cbn [omap list_omap].
      unfold processes at 1. simpl.
      pose proof Hc as Hc'. apply set_has_false in Hc'. rewrite Hc'.
      rewrite cons_middle, (assoc_L (++)). apply IH.
      by apply NoDup_snoc.
Qed.

End Facts.

End WorklistFacts.

(** ** The two traversals as instances of the worklist loop *)

Module TraversalFacts.
Import Js JsFacts QuestData UseQuests Worklist WorklistFacts Notions.

Lemma while_ext {St} (f g : St → option St) :
  (∀ st, f st = g st) → ∀ fuel st, while f fuel st = while g fuel st.
Proof.
  intros Hfg. induction fuel as [|fuel IH]; intros st; simpl; rewrite Hfg.
  - done.
  - destruct (g st); auto.
Qed.

Lemma trace_ext {St} (f g : St → option St) :
  (∀ st, f st = g st) → ∀ fuel st, trace f fuel st = trace g fuel st.
Proof.
  intros Hfg. induction fuel as [|fuel IH]; intros st; simpl; rewrite Hfg.
  - done.
  - destruct (g st); [|done]. by rewrite IH.
Qed.

(** Relations with the same edges have the same transitive closure. *)
Lemma tc_iff (R S : relation string) :
  (∀ a b, R a b ↔ S a b) → ∀ a b, tc R a b ↔ tc S a b.
Proof.
  intros H a b. split.
  - induction 1 as [x y Hxy|x y z Hxy _ IH].
    + by apply tc_once, H.
    + eapply tc_l; [|exact IH]. by apply H.
  - induction 1 as [x y Hxy|x y z Hxy _ IH].
    + by apply tc_once, H.
    + eapply tc_l; [|exact IH]. by apply H.
Qed.

Section Catalog.

Variable questTiers : list (list Quest).

(** *** The quest map *)

Lemma questMap_keys_NoDup : NoDup (map_keys (questMap questTiers)).
Proof. apply NoDup_map_keys_from. Qed.

Lemma questMap_get_Some i q :
  map_get i (questMap questTiers) = Some q →
  id q = i ∧ q ∈ concat questTiers.
Proof.
  intros H. apply map_get_from_Some in H.
  apply list_elem_of_fmap in H as (q' & [= -> ->] & Hin). done.
Qed.

Lemma questMap_value q :
  q ∈ map_values (questMap questTiers)
  ↔ map_get (id q) (questMap questTiers) = Some q.
Proof.
  unfold map_values. split.
  - intros ([k q'] & -> & Hin)%list_elem_of_fmap. simpl.
    pose proof Hin as Hget.
    apply map_get_elem in Hget; [|apply questMap_keys_NoDup].
    apply questMap_get_Some in Hget as Hk. destruct Hk as [<- _]. done.
  - intros H%map_get_Some_elem. apply list_elem_of_fmap.
    by exists (id q, q).
Qed.

(** In a catalog without repeated ids the map holds exactly the quests
    of the catalog, in their order. *)
Lemma questMap_unique_ids :
  unique_ids questTiers →
  questMap questTiers = (λ q, (id q, q)) <$> concat questTiers.
Proof.
  intros H. unfold questMap. apply map_from_NoDup.
  rewrite <- list_fmap_compose. exact H.
Qed.

Lemma direct_dep_unique_ids a b :
  unique_ids questTiers →
  direct_dep questTiers a b
  ↔ ∃ q, q ∈ concat questTiers ∧ id q = a ∧ b ∈ dependencies q.
Proof.
  intros Hu. unfold direct_dep, depends_on. split.
  - intros (q & Hq & Hb). apply questMap_get_Some in Hq as [? ?]. eauto.
  - intros (q & Hq & <- & Hb). exists q. split; [|done].
    apply questMap_value. unfold map_values.
    rewrite questMap_unique_ids, <- list_fmap_compose by done. simpl.
    rewrite list_fmap_id. done.
Qed.

(** A lookup in [questMap] finds the quest the catalog holds under the
    id: the last one with that id. *)
Lemma questMap_get i :
  map_get i (questMap questTiers) = catalog_quest questTiers i.
Proof.
  unfold questMap, catalog_quest.
  rewrite (map_get_from_last_filter id (λ q, q)).
  by destruct (last _).
Qed.

(** The relation the composable reads from [questMap] is the catalog's
    own. *)
Lemma direct_dep_catalog a b :
  direct_dep questTiers a b ↔ catalog_dep questTiers a b.
Proof.
  unfold direct_dep, depends_on, catalog_dep.
  split; intros (q & Hq & Hb); exists q; split; try done.
  - by rewrite <- questMap_get.
  - by rewrite questMap_get.
Qed.

Lemma catalog_dep_unique_ids a b :
  unique_ids questTiers →
  catalog_dep questTiers a b ↔ lists_dep questTiers a b.
Proof.
  intros Hu. rewrite <- direct_dep_catalog. by apply direct_dep_unique_ids.
Qed.

Lemma tc_direct_dep_catalog a b :
  tc (direct_dep questTiers) a b ↔ tc (catalog_dep questTiers) a b.
Proof. apply tc_iff, direct_dep_catalog. Qed.

Lemma tc_direct_dep_lists a b :
  unique_ids questTiers →
  tc (direct_dep questTiers) a b ↔ tc (lists_dep questTiers) a b.
Proof. intros Hu. apply tc_iff. intros x y. by apply direct_dep_unique_ids. Qed.

(** *** The steps *)

Lemma prerequisites_step_worklist st :
  prerequisites_step questTiers st = step (pushed_up questTiers) st.
Proof.
  destruct st as [[|c queue] seen]; simpl; [done|].
  unfold pushed_up. destruct (set_has c seen); [done|].
  destruct (map_get c (questMap questTiers)); done.
Qed.

Lemma dependants_step_worklist st :
  dependants_step questTiers st = step (pushed_down questTiers) st.
Proof.
  destruct st as [[|c queue] seen]; simpl; [done|].
  unfold pushed_down. destruct (set_has c seen); [done|].
  by rewrite foldl_fmap.
Qed.

(** *** The edges *)

Lemma edge_up a b :
  edge (pushed_up questTiers) a b ↔ direct_dep questTiers a b.
Proof.
  unfold edge, pushed_up, direct_dep, depends_on.
  destruct (map_get a (questMap questTiers)) as [q|].
  - split; [by exists q|]. by intros (? & [= <-] & ?).
  - rewrite elem_of_nil. split; [done|]. by intros (? & [=] & _).
Qed.

Lemma edge_down a b :
  edge (pushed_down questTiers) a b ↔ direct_dep questTiers b a.
Proof.
  unfold edge, pushed_down, dependants_of, direct_dep, depends_on.
  rewrite list_elem_of_fmap. split.
  - intros (q & -> & [Ha Hq]%list_elem_of_filter).
    exists q. split; [|done]. by apply questMap_value.
  - intros (q & Hq & Ha). exists q.
    apply questMap_get_Some in Hq as Hi. destruct Hi as [<- _].
    split; [done|]. apply list_elem_of_filter. split; [done|].
    by apply questMap_value.
Qed.

Lemma rtc_up a b :
  rtc (edge (pushed_up questTiers)) a b ↔ rtc (direct_dep questTiers) a b.
Proof.
  split; apply rtc_subrel; intros x y; apply edge_up.
Qed.

Lemma rtc_down a b :
  rtc (edge (pushed_down questTiers)) a b ↔ rtc (direct_dep questTiers) b a.
Proof.
  split.
  - induction 1 as [|x y z Hxy _ IH]; [done|].
    eapply rtc_r; [exact IH|]. by apply edge_down.
  - revert a. apply rtc_ind_r; [done|].
    intros y z _ Hyz IH. eapply rtc_l; [|exact IH]. by apply edge_down.
Qed.

(** *** The budgets *)

Lemma unseen_weight_nil budget : unseen_weight budget [] = sum_list budget.*2.
Proof.
  unfold unseen_weight. induction budget as [|[u w] budget IH]; csimpl; auto.
Qed.

Lemma budget_up_total :
  sum_list (budget_up questTiers).*2
  = sum_list (length ∘ dependencies <$> map_values (questMap questTiers)).
Proof.
  unfold budget_up, map_values. by rewrite <- !list_fmap_compose.
Qed.

Lemma budget_down_total :
  sum_list (budget_down questTiers).*2
  = sum_list (length ∘ dependencies <$> map_values (questMap questTiers)).
Proof.
  unfold budget_down.
  induction (map_values (questMap questTiers)) as [|q l IH]; csimpl; [done|].
  rewrite fmap_app, sum_list_with_app, IH. f_equal.
  rewrite <- list_fmap_compose. simpl.
  induction (dependencies q) as [|d ds IHd]; csimpl; auto.
Qed.

Lemma budget_up_share c :
  length (pushed_up questTiers c) ≤ share (budget_up questTiers) c.
Proof.
  unfold pushed_up, budget_up, share.
  induction (questMap questTiers) as [|[k q] m IH]; csimpl; [done|].
  destruct (decide (k = c)) as [->|Hne]; lia.
Qed.

Lemma share_app b1 b2 c : share (b1 ++ b2) c = share b1 c + share b2 c.
Proof. unfold share. by rewrite fmap_app, sum_list_with_app. Qed.

Lemma budget_down_share c :
  length (pushed_down questTiers c) ≤ share (budget_down questTiers) c.
Proof.
  unfold pushed_down, dependants_of, budget_down.
  rewrite length_fmap.
  induction (map_values (questMap questTiers)) as [|q l IH]; csimpl; [done|].
  rewrite share_app.
  destruct (decide (c ∈ dependencies q)) as [Hc|Hc].
  - rewrite filter_cons_True by done. simpl.
    enough (1 ≤ share ((λ d, (d, 1)) <$> dependencies q) c) by lia.
    clear IH. induction (dependencies q) as [|d ds IHd].
    + by apply elem_of_nil in Hc.
    + unfold share in *. csimpl. destruct (decide (d = c)); [lia|].
      apply elem_of_cons in Hc as [?|?]; [congruence|]. auto.
  - rewrite filter_cons_False by done. lia.
Qed.

(** *** The loops terminate and compute the reachable ids *)

Lemma prerequisites_loop s :
  ∃ seen,
    while (prerequisites_step questTiers) (prerequisites_fuel questTiers)
      ([s], []) = Some ([], seen)
    ∧ NoDup seen
    ∧ ∀ x, x ∈ seen ↔ rtc (direct_dep questTiers) s x.
Proof.
  rewrite (while_ext _ _ prerequisites_step_worklist).
  destruct (loop_terminates (pushed_up questTiers) (budget_up questTiers)
              budget_up_share (prerequisites_fuel questTiers) ([s], []))
    as [[queue seen] Hrun].
  { unfold measure, prerequisites_fuel. simpl.
    rewrite unseen_weight_nil, budget_up_total. done. }
  apply loop_result in Hrun as Hres. simpl in Hres.
  destruct Hres as (-> & Hnd & Hseen).
  exists seen. split_and!; [done..|].
  intros x. rewrite Hseen. apply rtc_up.
Qed.

Lemma dependants_loop s :
  ∃ seen,
    while (dependants_step questTiers) (dependants_fuel questTiers)
      ([s], []) = Some ([], seen)
    ∧ NoDup seen
    ∧ ∀ x, x ∈ seen ↔ rtc (direct_dep questTiers) x s.
Proof.
  rewrite (while_ext _ _ dependants_step_worklist).
  destruct (loop_terminates (pushed_down questTiers) (budget_down questTiers)
              budget_down_share (dependants_fuel questTiers) ([s], []))
    as [[queue seen] Hrun].
  { unfold measure, dependants_fuel. simpl.
    rewrite unseen_weight_nil, budget_down_total. done. }
  apply loop_result in Hrun as Hres. simpl in Hres.
  destruct Hres as (-> & Hnd & Hseen).
  exists seen. split_and!; [done..|].
  intros x. rewrite Hseen. apply rtc_down.
Qed.

End Catalog.

End TraversalFacts.

(** ** The traversals of the composable *)

Import Js JsFacts QuestData UseQuests Notions.

Example diamond_fast_forward :
  completeQuestPrerequisites Samples.diamond "d" [] = Some ["c"; "a"; "b"].
Proof. reflexivity. Qed.

Example diamond_rewind :
  uncompleteDependants Samples.diamond "a" ["a"; "b"; "c"; "d"] = Some [].
Proof. reflexivity. Qed.

(** What [completeQuestPrerequisites] returns, as a list: the ids reached
    from [questId] without [questId], then the completed ids that are not
    among them. *)
Lemma completeQuestPrerequisites_shape questTiers questId completedQuests :
  ∃ seen,
    NoDup seen
    ∧ (∀ x, x ∈ seen ↔ rtc (direct_dep questTiers) questId x)
    ∧ completeQuestPrerequisites questTiers questId completedQuests
      = Some (set_union (set_delete questId seen) completedQuests).
Proof.
  destruct (TraversalFacts.prerequisites_loop questTiers questId)
    as (seen & Hrun & Hnd & Hseen).
  exists seen. split_and!; [done..|].
  unfold completeQuestPrerequisites. rewrite Hrun. done.
Qed.

Lemma uncompleteDependants_shape questTiers questId completedQuests :
  ∃ seen,
    NoDup seen
    ∧ (∀ x, x ∈ seen ↔ rtc (direct_dep questTiers) x questId)
    ∧ uncompleteDependants questTiers questId completedQuests
      = Some (set_difference (set_from completedQuests) seen).
Proof.
  destruct (TraversalFacts.dependants_loop questTiers questId)
    as (seen & Hrun & Hnd & Hseen).
  exists seen. split_and!; [done..|].
  unfold uncompleteDependants. rewrite Hrun. done.
Qed.

(** C1. For every catalog, every quest id and every completed set,
    [completeQuestPrerequisites] returns the union of the old completed set
    and the strict transitive prerequisites of the id: what the transitive
    closure of the catalog's dependency relation reaches from it, the id
    itself excluded. The relation is the catalog's own, [catalog_dep]; in
    a catalog with unique ids it is [lists_dep], some quest with the one id
    listing the other. The id itself is in the result only when it was
    completed before, and every completed id stays. *)
Theorem completeQuestPrerequisites_spec
    (questTiers : list (list Quest)) (questId : string)
    (completedQuests : list string) :
  ∃ result,
    completeQuestPrerequisites questTiers questId completedQuests = Some result
    ∧ (∀ x, x ∈ result
            ↔ x ∈ completedQuests
              ∨ (x ≠ questId ∧ tc (catalog_dep questTiers) questId x))
    ∧ (unique_ids questTiers →
       ∀ x, x ∈ result
            ↔ x ∈ completedQuests
              ∨ (x ≠ questId ∧ tc (lists_dep questTiers) questId x))
    ∧ (questId ∈ result → questId ∈ completedQuests)
    ∧ (∀ x, x ∈ completedQuests → x ∈ result).
Proof.
  destruct (completeQuestPrerequisites_shape questTiers questId completedQuests)
    as (seen & _ & Hseen & ->).
  eexists. split; [done|].
  assert (∀ x, x ∈ set_union (set_delete questId seen) completedQuests
               ↔ x ∈ completedQuests
                 ∨ (x ≠ questId ∧ tc (direct_dep questTiers) questId x)) as H.
  { intros x. rewrite elem_of_set_union, elem_of_set_delete, Hseen, rtc_tc.
    split.
    - intros [[Hne [->|Htc]]|?]; [done|right|left]; done.
    - intros [?|[Hne Htc]]; [right|left]; auto. }
  split_and!.
  - intros x. by rewrite H, TraversalFacts.tc_direct_dep_catalog.
  - intros Hu x. by rewrite H, TraversalFacts.tc_direct_dep_lists.
  - intros [?|[? _]]%H; done.
  - intros x Hx. apply H. by left.
Qed.

Lemma diamond_unique_ids : unique_ids Samples.diamond.
Proof. apply (bool_decide_unpack _). vm_compute. exact I. Qed.

Lemma completeQuestPrerequisites_spec_witness :
  unique_ids Samples.diamond
  ∧ ∃ result,
      completeQuestPrerequisites Samples.diamond "d" ["d"; "z"] = Some result
      ∧ (∀ x, x ∈ result
              ↔ x ∈ ["d"; "z"]
                ∨ (x ≠ "d" ∧ tc (lists_dep Samples.diamond) "d" x)).
Proof.
  split; [exact diamond_unique_ids|].
  destruct (completeQuestPrerequisites_spec Samples.diamond "d" ["d"; "z"])
    as (result & Hrun & _ & Hunique & _).
  exists result. split; [exact Hrun|]. exact (Hunique diamond_unique_ids).
Defined.

(** C2. For every quest id and every completed set, [uncompleteDependants]
    removes exactly the id itself and its transitive dependants (the ids
    from which the transitive closure of the catalog's dependency relation
    reaches it); every other id is in the result iff it was completed. The
    relation is the catalog's own, [catalog_dep]; in a catalog with unique
    ids it is [lists_dep]. *)
Theorem uncompleteDependants_spec
    (questTiers : list (list Quest)) (questId : string)
    (completedQuests : list string) :
  ∃ result,
    uncompleteDependants questTiers questId completedQuests = Some result
    ∧ (∀ x, x ∈ result
            ↔ x ∈ completedQuests
              ∧ ¬ (x = questId ∨ tc (catalog_dep questTiers) x questId))
    ∧ (unique_ids questTiers →
       ∀ x, x ∈ result
            ↔ x ∈ completedQuests
              ∧ ¬ (x = questId ∨ tc (lists_dep questTiers) x questId)).
Proof.
  destruct (uncompleteDependants_shape questTiers questId completedQuests)
    as (seen & _ & Hseen & ->).
  eexists. split; [done|].
  assert (∀ x, x ∈ set_difference (set_from completedQuests) seen
               ↔ x ∈ completedQuests
                 ∧ ¬ (x = questId ∨ tc (direct_dep questTiers) x questId))
    as H.
  { intros x.
    by rewrite elem_of_set_difference, elem_of_set_from, Hseen, rtc_tc. }
  split.
  - intros x. by rewrite H, TraversalFacts.tc_direct_dep_catalog.
  - intros Hu x. by rewrite H, TraversalFacts.tc_direct_dep_lists.
Qed.

Lemma uncompleteDependants_spec_witness :
  unique_ids Samples.diamond
  ∧ ∃ result,
      uncompleteDependants Samples.diamond "b" ["a"; "b"; "c"; "d"]
      = Some result
      ∧ (∀ x, x ∈ result
              ↔ x ∈ ["a"; "b"; "c"; "d"]
                ∧ ¬ (x = "b" ∨ tc (lists_dep Samples.diamond) x "b")).
Proof.
  split; [exact diamond_unique_ids|].
  destruct (uncompleteDependants_spec Samples.diamond "b"
              ["a"; "b"; "c"; "d"]) as (result & Hrun & _ & Hunique).
  exists result. split; [exact Hrun|]. exact (Hunique diamond_unique_ids).
Defined.

(** C7. Calling [completeQuestPrerequisites] a second time with the same id
    on the set the first call produced gives that set again (the same
    elements in the same order). *)
Theorem completeQuestPrerequisites_idempotent
    (questTiers : list (list Quest)) (questId : string)
    (completedQuests : list string) :
  ∃ once,
    completeQuestPrerequisites questTiers questId completedQuests = Some once
    ∧ completeQuestPrerequisites questTiers questId once = Some once.
Proof.
  destruct (TraversalFacts.prerequisites_loop questTiers questId)
    as (seen & Hrun & Hnd & _).
  unfold completeQuestPrerequisites. rewrite Hrun. simpl.
  eexists. split; [done|]. f_equal.
  set (T := set_delete questId seen).
  assert (NoDup T) as HT by by apply NoDup_set_delete.
  destruct (set_union_extends T completedQuests) as [r Hr].
  assert (NoDup (T ++ r)) as Hnd'.
  { rewrite <- Hr. by apply NoDup_set_union. }
  rewrite Hr, set_union_app, (set_union_absorb T T) by done.
  by apply set_union_fresh.
Qed.

(** C10. For an id that no quest of the catalog carries, the traversal of
    [completeQuestPrerequisites] discovers the id alone and the completed
    set comes back as it was. *)
Theorem completeQuestPrerequisites_unknown_id
    (questTiers : list (list Quest)) (questId : string)
    (completedQuests : list string) :
  (∀ q, q ∈ concat questTiers → id q ≠ questId) →
  NoDup completedQuests →
  while (prerequisites_step questTiers) (prerequisites_fuel questTiers)
    ([questId], []) = Some ([], [questId])
  ∧ completeQuestPrerequisites questTiers questId completedQuests
    = Some completedQuests.
Proof.
  intros Hnew Hnd.
  assert (map_get questId (questMap questTiers) = None) as Hget.
  { destruct (map_get questId (questMap questTiers)) as [q|] eqn:E; [|done].
    apply TraversalFacts.questMap_get_Some in E as [Hid Hin].
    by destruct (Hnew q Hin). }
  assert (while (prerequisites_step questTiers) (prerequisites_fuel questTiers)
            ([questId], []) = Some ([], [questId])) as Hrun.
  { rewrite (TraversalFacts.while_ext _ _
               (TraversalFacts.prerequisites_step_worklist questTiers)).
    unfold prerequisites_fuel. cbn [while].
    rewrite WorklistFacts.step_process by apply not_elem_of_nil.
    unfold pushed_up. rewrite Hget. simpl.
    by destruct (sum_list _). }
  split; [done|].
  unfold completeQuestPrerequisites. rewrite Hrun. simpl. f_equal.
  unfold set_delete. rewrite filter_cons_False by (intros H; by apply H).
  rewrite filter_nil.
  by apply set_from_NoDup.
Qed.

Lemma completeQuestPrerequisites_unknown_id_witness :
  (∀ q, q ∈ concat Samples.diamond → id q ≠ "z")
  ∧ NoDup ["a"; "d"]
  ∧ completeQuestPrerequisites Samples.diamond "z" ["a"; "d"]
    = Some ["a"; "d"].
Proof.
  assert (∀ q, q ∈ concat Samples.diamond → id q ≠ "z") as Hnew.
  { apply Forall_forall. apply (bool_decide_unpack _). vm_compute. exact I. }
  assert (NoDup ["a"; "d"]) as Hnd.
  { apply (bool_decide_unpack _). vm_compute. exact I. }
  split_and!; [exact Hnew|exact Hnd|].
  apply (completeQuestPrerequisites_unknown_id Samples.diamond "z" ["a"; "d"]
           Hnew Hnd).
Defined.


(** C9. On every catalog, and so on every acyclic one, diamonds included,
    both worklist loops end with an empty stack within the iteration bound
    (the trace of the run ends there), so both operations return; and no
    id is processed (added to the set and expanded) by more than one
    iteration of a loop. *)
Theorem traversals_terminate
    (questTiers : list (list Quest)) (questId : string) :
  (∃ seen,
      while (prerequisites_step questTiers) (prerequisites_fuel questTiers)
        ([questId], []) = Some ([], seen)
      ∧ last (trace (prerequisites_step questTiers)
                (prerequisites_fuel questTiers) ([questId], []))
        = Some ([], seen))
  ∧ NoDup (omap Worklist.processes
             (trace (prerequisites_step questTiers)
                (prerequisites_fuel questTiers) ([questId], [])))
  ∧ (∃ seen,
      while (dependants_step questTiers) (dependants_fuel questTiers)
        ([questId], []) = Some ([], seen)
      ∧ last (trace (dependants_step questTiers)
                (dependants_fuel questTiers) ([questId], []))
        = Some ([], seen))
  ∧ NoDup (omap Worklist.processes
             (trace (dependants_step questTiers)
                (dependants_fuel questTiers) ([questId], [])))
  ∧ (∀ completedQuests,
       is_Some (completeQuestPrerequisites questTiers questId completedQuests)
       ∧ is_Some (uncompleteDependants questTiers questId completedQuests)).
Proof.
  destruct (TraversalFacts.prerequisites_loop questTiers questId)
    as (up & Hup & _).
  destruct (TraversalFacts.dependants_loop questTiers questId)
    as (down & Hdown & _).
  split_and!.
  - exists up. split; [done|]. by apply trace_last.
  - rewrite (TraversalFacts.trace_ext _ _
               (TraversalFacts.prerequisites_step_worklist questTiers)).
    apply (WorklistFacts.trace_processes_once _ _ [questId] []), NoDup_nil_2.
  - exists down. split; [done|]. by apply trace_last.
  - rewrite (TraversalFacts.trace_ext _ _
               (TraversalFacts.dependants_step_worklist questTiers)).
    apply (WorklistFacts.trace_processes_once _ _ [questId] []), NoDup_nil_2.
  - intros completedQuests.
    unfold completeQuestPrerequisites, uncompleteDependants.
    rewrite Hup, Hdown. simpl. split; by eexists.
Qed.

Example diamond_processing_order :
  omap Worklist.processes
    (trace (prerequisites_step Samples.diamond)
       (prerequisites_fuel Samples.diamond) (["d"], []))
  = ["d"; "c"; "a"; "b"].
Proof. reflexivity. Qed.

(** ** Hydration *)

Lemma onMounted_returns JSON_parse getItem st :
  ∃ st', onMounted JSON_parse getItem st = Normal st'.
Proof.
  unfold onMounted. destruct (isInitialized st); [by eexists|].
  destruct getItem as [[text|]|e]; simpl; try by eexists.
  case_bool_decide; [|by eexists].
  destruct (JSON_parse text) as [[]|e]; simpl; by eexists.
Qed.

(** C8. Hydration never raises. At startup, a persisted value that is
    absent, is not JSON, or is JSON for anything but an array ([null]
    included) leaves the completed set empty. The set is replaced only by
    a persisted array, and then by the set of its items. *)
Theorem hydration_tolerates_bad_data
    (JSON_parse : string → Completion Json)
    (getItem : Completion (option string)) :
  (∀ st, ∃ st', onMounted JSON_parse getItem st = Normal st')
  ∧ (no_saved_array JSON_parse getItem →
     ∃ st', onMounted JSON_parse getItem initial_store = Normal st'
            ∧ completedQuests st' = [])
  ∧ (∀ st st',
       onMounted JSON_parse getItem st = Normal st' →
       completedQuests st' ≠ completedQuests st →
       ∃ text items,
         getItem = Normal (Some text)
         ∧ JSON_parse text = Normal (JArray items)
         ∧ completedQuests st' = set_from items)
  ∧ (∀ text items,
       getItem = Normal (Some text) → text ≠ "" →
       JSON_parse text = Normal (JArray items) →
       ∃ st', onMounted JSON_parse getItem initial_store = Normal st'
              ∧ completedQuests st' = set_from items).
Proof.
  split_and!.
  - intros st. apply onMounted_returns.
  - unfold onMounted. simpl.
    intros [->|(text & -> & Hparse)]; simpl; [by eexists|].
    case_bool_decide; [|by eexists].
    destruct Hparse as [[e ->]|[->|(v & -> & Hv)]]; simpl; [by eexists..|].
    destruct v; try discriminate; by eexists.
  - intros st st'. unfold onMounted.
    destruct (isInitialized st); [by intros [= <-]|].
    destruct getItem as [[text|]|e]; simpl; try by intros [= <-].
    case_bool_decide; [|by intros [= <-]].
    destruct (JSON_parse text) as [[]|e] eqn:E; simpl; try by intros [= <-].
    intros [= <-] _. by eexists _, _.
  - intros text items -> Hne Hparse. unfold onMounted. simpl.
    rewrite bool_decide_eq_true_2, Hparse by done. simpl. by eexists.
Qed.

Lemma hydration_tolerates_bad_data_witness :
  no_saved_array Samples.parse_sample (Normal (Some "{}"))
  ∧ ∃ st', onMounted Samples.parse_sample (Normal (Some "{}")) initial_store
           = Normal st'
           ∧ completedQuests st' = [].
Proof.
  assert (no_saved_array Samples.parse_sample (Normal (Some "{}"))) as H.
  { right. exists "{}". split; [reflexivity|]. right. right.
    exists (JObject []). split; reflexivity. }
  split; [exact H|].
  exact (proj1 (proj2 (hydration_tolerates_bad_data Samples.parse_sample
                         (Normal (Some "{}")))) H).
Defined.

Example hydration_not_json :
  onMounted Samples.parse_sample (Normal (Some "{oops")) initial_store
  = Normal {| isInitialized := true;
              completedQuests := [];
              console_errors :=
                ["Error loading quest progress on mount: SyntaxError"] |}.
Proof. reflexivity. Qed.

(** ** The tier sorter: the two passes *)

Module PassFacts.
Import GenerateTiers.

Lemma first_pass_snoc titles t :
  first_pass (titles ++ [t])
  = (map_set t (generateId t) (first_pass titles).1,
     if map_has t (first_pass titles).1
     then (first_pass titles).2
            ++ [console_warn
                  ("Duplicate title found (will be overwritten): " +:+ t)]
     else (first_pass titles).2).
Proof.
  unfold first_pass. rewrite foldl_app. simpl.
  by destruct (foldl _ _ titles).
Qed.

(** The first pass stores every title with its slug. *)
Lemma first_pass_get titles t :
  map_get t (first_pass titles).1
  = if decide (t ∈ titles) then Some (generateId t) else None.
Proof.
  induction titles as [|t0 titles IH] using rev_ind.
  - destruct (decide (t ∈ [])) as [H|H]; [by apply elem_of_nil in H|done].
  - rewrite first_pass_snoc. cbn [fst]. rewrite map_get_set, IH.
    destruct (decide (t0 = t)) as [->|Hne].
    + rewrite decide_True; [done|]. apply elem_of_app. right. left.
    + destruct (decide (t ∈ titles)) as [Hin|Hin].
      * rewrite decide_True; [done|]. apply elem_of_app. by left.
      * rewrite decide_False; [done|].
        rewrite elem_of_app, list_elem_of_singleton.
        intros [?|?]; [done|congruence].
Qed.

(** The warning needs a title that occurs twice. *)
Lemma first_pass_no_warning titles :
  NoDup titles → (first_pass titles).2 = [].
Proof.
  induction titles as [|t0 titles IH] using rev_ind; [done|].
  intros (Hnd & Hd & _)%NoDup_app. rewrite first_pass_snoc. simpl.
  assert (map_has t0 (first_pass titles).1 = false) as ->.
  { unfold map_has. apply bool_decide_eq_false.
    rewrite first_pass_get, decide_False; [by intros [? [=]]|].
    intros Hin. apply (Hd t0 Hin). left. }
  auto.
Qed.

Lemma dependencyIds_elem tm data d :
  d ∈ dependencyIds tm data
  ↔ d ≠ "" ∧ ∃ depTitle, depTitle ∈ RawData.dependencies data
                          ∧ map_get depTitle tm = Some d.
Proof.
  unfold dependencyIds. rewrite list_elem_of_omap. split.
  - intros (v & [Hb Hv]%list_elem_of_filter & ->).
    apply list_elem_of_fmap in Hv as (depTitle & Hget & Hin).
    simpl in Hb. apply Is_true_true, bool_decide_eq_true in Hb.
    split; [done|]. by exists depTitle.
  - intros (Hne & depTitle & Hin & Hget). exists (Some d). split; [|done].
    apply list_elem_of_filter. split.
    + simpl. by apply Is_true_true, bool_decide_eq_true.
    + apply list_elem_of_fmap. by exists depTitle.
Qed.

Section Input.

Variable questMap : list (string * RawData.RawQuest).

Local Abbreviation tm := (titleToIdMap_of questMap).

Lemma titleToIdMap_get t :
  map_get t tm = if decide (t ∈ questMap.*1) then Some (generateId t) else None.
Proof. apply first_pass_get. Qed.

(** The second pass keeps, of the listed titles, those that are titles of
    the input and have a non-empty slug, in the order listed. *)
Lemma dependencyIds_exact data :
  dependencyIds tm data
  = generateId <$> filter (λ d, d ∈ questMap.*1 ∧ generateId d ≠ "")
                     (RawData.dependencies data).
Proof.
  unfold dependencyIds.
  induction (RawData.dependencies data) as [|d ds IH]; [done|]. csimpl.
  rewrite titleToIdMap_get.
  destruct (decide (d ∈ questMap.*1)) as [Hin|Hin].
  - destruct (decide (generateId d = "")) as [Hempty|Hfull].
    + rewrite !filter_cons_False
        by first [by intros [_ ?]
                 |simpl; rewrite Hempty;
                  by intros ?%Is_true_true%bool_decide_eq_true].
      done.
    + rewrite !filter_cons_True
        by first [done|simpl; by apply Is_true_true, bool_decide_eq_true].
      csimpl. by rewrite IH.
  - rewrite !filter_cons_False by first [by intros [? _]|by intros []].
    done.
Qed.

(** An entry of [allQuests] is the slug of a title with the quest the
    entry of the input stands for. *)
Lemma resolve_resolved entry :
  resolve tm entry = (generateId entry.1, resolved_quest questMap entry).
Proof. unfold resolve, resolved_quest. by rewrite dependencyIds_exact. Qed.

(** The second pass is [new Map] on the resolved entries. *)
Lemma allQuests_map_from :
  allQuests_of questMap = map_from (resolve tm <$> questMap).
Proof.
  unfold allQuests_of, second_pass, map_from. fold tm.
  assert (∀ l acc, l.*1 ⊆ questMap.*1 →
    foldl (λ allQuests '(title, questData),
             match map_get title tm with
             | Some i =>
                 map_set i {| id := i;
                              title := title;
                              url := RawData.url questData;
                              dependencies := dependencyIds tm questData |}
                   allQuests
             | None => allQuests
             end) acc l
    = foldl (λ m kv, map_set kv.1 kv.2 m) acc (resolve tm <$> l)) as H.
  { induction l as [|[t data] l IH]; intros acc Hsub; [done|].
    csimpl. rewrite titleToIdMap_get, decide_True.
    - apply IH. intros x Hx. apply Hsub. by right.
    - apply Hsub. left. }
  by apply H.
Qed.

Lemma allQuests_keys_NoDup : NoDup (map_keys (allQuests_of questMap)).
Proof. rewrite allQuests_map_from. apply NoDup_map_keys_from. Qed.

Lemma allQuests_get_Some i q :
  map_get i (allQuests_of questMap) = Some q →
  ∃ entry, entry ∈ questMap ∧ (i, q) = resolve tm entry.
Proof.
  rewrite allQuests_map_from. intros H%map_get_from_Some.
  apply list_elem_of_fmap in H as (entry & ? & ?). by exists entry.
Qed.

Lemma allQuests_key i :
  i ∈ map_keys (allQuests_of questMap) ↔ i ∈ generateId <$> questMap.*1.
Proof.
  rewrite allQuests_map_from, map_keys_from.
  by rewrite <- !list_fmap_compose.
Qed.

Lemma allQuests_value q :
  q ∈ map_values (allQuests_of questMap)
  ↔ map_get (id q) (allQuests_of questMap) = Some q.
Proof.
  unfold map_values. split.
  - intros ([k q'] & -> & Hin)%list_elem_of_fmap. simpl.
    apply map_get_elem in Hin as Hget; [|apply allQuests_keys_NoDup].
    apply allQuests_get_Some in Hget as Hk.
    destruct Hk as (entry & _ & [= -> ->]). done.
  - intros H%map_get_Some_elem. apply list_elem_of_fmap.
    by exists (id q, q).
Qed.

Lemma allQuests_ids_NoDup :
  NoDup (id <$> map_values (allQuests_of questMap)).
Proof.
  assert (id <$> map_values (allQuests_of questMap)
          = map_keys (allQuests_of questMap)) as ->.
  { unfold map_values, map_keys. rewrite <- list_fmap_compose.
    apply list_fmap_ext. intros n [k q] Hl. simpl.
    apply list_elem_of_lookup_2, map_get_elem in Hl;
      [|apply allQuests_keys_NoDup].
    apply allQuests_get_Some in Hl as (entry & _ & [= -> ->]). done. }
  apply allQuests_keys_NoDup.
Qed.

(** Under a slug [allQuests] holds the quest of the entry kept for it. *)
Lemma allQuests_get i :
  map_get i (allQuests_of questMap)
  = resolved_quest questMap <$> kept_entry questMap i.
Proof.
  rewrite allQuests_map_from. unfold kept_entry.
  rewrite <- (map_get_from_last_filter (λ entry, generateId entry.1)
                (resolved_quest questMap)).
  do 2 f_equal. apply list_fmap_ext. intros n entry _.
  apply resolve_resolved.
Qed.

Lemma allQuests_kept q :
  q ∈ map_values (allQuests_of questMap) ↔ kept_quest questMap q.
Proof.
  rewrite allQuests_value, allQuests_get. unfold kept_quest.
  destruct (kept_entry questMap (id q)) as [entry|]; simpl.
  - split; [intros [= <-]; by exists entry|].
    by intros (entry' & [= <-] & ->).
  - split; [done|]. by intros (entry' & [=] & _).
Qed.

(** The graph the loop sorts is the resolved graph of the input. *)
Lemma resolved_dep_graph a b :
  resolved_dep questMap a b ↔ resolved_graph questMap a b.
Proof.
  unfold resolved_dep, depends_on, resolved_graph. rewrite allQuests_get.
  destruct (kept_entry questMap a) as [entry|]; simpl.
  - split; [intros (q & [= <-] & Hb); by exists entry|].
    intros (entry' & [= <-] & Hb). by eexists.
  - split; [by intros (q & [=] & _)|by intros (entry' & [=] & _)].
Qed.

(** With pairwise distinct titles and slugs every entry is the one kept
    for its slug. *)
Lemma kept_entry_distinct entry :
  NoDup questMap.*1 → distinct_slugs questMap → entry ∈ questMap →
  kept_entry questMap (generateId entry.1) = Some entry.
Proof.
  intros Hnd Hslugs Hentry. unfold kept_entry.
  set (same := filter (λ e : string * RawData.RawQuest,
                         generateId e.1 = generateId entry.1) questMap).
  assert (entry ∈ same) as Hin by by apply list_elem_of_filter.
  destruct (last same) as [kept|] eqn:Elast.
  - f_equal. apply last_Some_elem_of, list_elem_of_filter in Elast
      as [Hslug Hkept].
    assert (kept.1 = entry.1) as Htitle.
    { apply Hslugs; [by apply list_elem_of_fmap_2..|done]. }
    destruct kept as [t d], entry as [t' d']. simpl in Htitle. subst t'.
    apply (map_get_elem t d) in Hkept; [|done].
    apply (map_get_elem t d') in Hentry; [|done]. congruence.
  - apply last_None in Elast. rewrite Elast in Hin.
    by apply elem_of_nil in Hin.
Qed.

(** Every dependency id that survives the second pass is the id of a
    quest of [allQuests]. *)
Lemma allQuests_closed q d :
  q ∈ map_values (allQuests_of questMap) → d ∈ dependencies q →
  d ∈ id <$> map_values (allQuests_of questMap).
Proof.
  intros Hq%allQuests_value Hd.
  apply allQuests_get_Some in Hq as (entry & Hentry & [= _ ->]).
  simpl in Hd. apply dependencyIds_elem in Hd as (_ & depTitle & _ & Hget).
  rewrite titleToIdMap_get in Hget.
  destruct (decide (depTitle ∈ questMap.*1)) as [Hin|]; [|done].
  injection Hget as <-.
  assert (generateId depTitle ∈ map_keys (allQuests_of questMap)) as Hk.
  { apply allQuests_key. by apply list_elem_of_fmap_2. }
  apply map_get_is_Some in Hk as [q' Hq'].
  assert (id q' = generateId depTitle) as Hid.
  { apply allQuests_get_Some in Hq' as (entry' & _ & [= -> ->]). done. }
  apply list_elem_of_fmap. exists q'. split; [done|].
  apply allQuests_value. by rewrite Hid.
Qed.

End Input.

End PassFacts.

(** ** The tier sorter: the loop *)

Module TierFacts.
Import GenerateTiers.

Lemma depsMet_true processed q :
  depsMet processed q = true ↔ ∀ d, d ∈ dependencies q → d ∈ processed.
Proof.
  unfold depsMet. rewrite forallb_forall. split.
  - intros H d Hd. apply set_has_true, H. by apply list_elem_of_In.
  - intros H d Hd. apply set_has_true, H. by apply list_elem_of_In.
Qed.

(** One round splits the remaining quests, keeping their order. *)
Lemma round_filter processed rem :
  round processed rem
  = (filter (λ q, depsMet processed q = true) rem,
     filter (λ q, depsMet processed q = false) rem).
Proof.
  unfold round.
  assert (∀ l c n,
    foldl (λ '(currentTier, questsForNextRound) quest,
             if depsMet processed quest
             then (currentTier ++ [quest], questsForNextRound)
             else (currentTier, questsForNextRound ++ [quest])) (c, n) l
    = (c ++ filter (λ q, depsMet processed q = true) l,
       n ++ filter (λ q, depsMet processed q = false) l)) as H.
  { induction l as [|q l IH]; intros c n; simpl.
    - by rewrite !app_nil_r.
    - destruct (depsMet processed q) eqn:E; rewrite IH.
      + rewrite filter_cons_True, filter_cons_False by (by rewrite E).
        by rewrite <- app_assoc.
      + rewrite filter_cons_False, filter_cons_True by (by rewrite E).
        by rewrite <- app_assoc. }
  apply (H rem [] []).
Qed.

Lemma round_Permutation processed rem :
  filter (λ q, depsMet processed q = true) rem
    ++ filter (λ q, depsMet processed q = false) rem ≡ₚ rem.
Proof.
  induction rem as [|q rem IH]; [done|].
  destruct (depsMet processed q) eqn:E.
  - rewrite filter_cons_True, filter_cons_False by (by rewrite E).
    simpl. by rewrite IH.
  - rewrite filter_cons_False, filter_cons_True by (by rewrite E).
    rewrite <- Permutation_middle. by rewrite IH.
Qed.

Lemma processed_after processed (tier : list Quest) d :
  d ∈ foldl (λ s quest, set_add (id quest) s) processed tier
  ↔ d ∈ processed ∨ d ∈ id <$> tier.
Proof.
  rewrite <- (foldl_fmap (λ s x, set_add x s) processed tier id).
  apply elem_of_set_union.
Qed.

(** *** Tiers under the addition of a tier *)

Lemma in_tier_snoc tiers tier t q :
  in_tier (tiers ++ [tier]) t q
  ↔ in_tier tiers t q ∨ (t = length tiers ∧ q ∈ tier).
Proof.
  unfold in_tier. split.
  - intros (x & Hx & Hq). apply lookup_app_Some in Hx as [Hx|[Hle Hx]].
    + left. by exists x.
    + right. apply list_lookup_singleton_Some in Hx as [Ht ->].
      split; [lia|done].
  - intros [(x & Hx & Hq)|[-> Hq]].
    + exists x. split; [|done]. by apply lookup_app_l_Some.
    + exists tier. split; [|done]. by apply list_lookup_middle.
Qed.

Lemma in_tier_lt tiers t q : in_tier tiers t q → t < length tiers.
Proof. intros (x & Hx & _). by apply lookup_lt_Some in Hx. Qed.

Lemma in_tier_concat tiers q : q ∈ concat tiers ↔ ∃ t, in_tier tiers t q.
Proof.
  unfold in_tier. rewrite elem_of_concat. split.
  - intros (x & Hx & Hq). apply list_elem_of_lookup in Hx as [t Ht]. eauto.
  - intros (t & x & Hx & Hq). exists x. split; [|done].
    by eapply list_elem_of_lookup_2.
Qed.

Lemma placed_before_snoc tiers tier t d :
  t ≤ length tiers →
  placed_before (tiers ++ [tier]) t d ↔ placed_before tiers t d.
Proof.
  intros Hle. unfold placed_before. split.
  - intros (t' & q & Hlt & Hin & Hid). exists t', q. split_and!; [done| |done].
    apply in_tier_snoc in Hin as [?|[-> _]]; [done|lia].
  - intros (t' & q & Hlt & Hin & Hid). exists t', q. split_and!; [done| |done].
    apply in_tier_snoc. by left.
Qed.

Lemma placed_before_length tiers d :
  placed_before tiers (length tiers) d ↔ d ∈ id <$> concat tiers.
Proof.
  unfold placed_before. rewrite list_elem_of_fmap. split.
  - intros (t' & q & _ & Hin & <-). exists q. split; [done|].
    apply in_tier_concat. by exists t'.
  - intros (q & -> & [t' Hin]%in_tier_concat). exists t', q.
    split_and!; [|done..]. by eapply in_tier_lt.
Qed.

Lemma placed_before_mono tiers t t' d :
  t ≤ t' → placed_before tiers t d → placed_before tiers t' d.
Proof.
  intros Hle (t0 & q & Hlt & Hin & Hid). exists t0, q. split_and!; [lia|done..].
Qed.

Lemma ready_snoc tiers tier t q :
  t ≤ length tiers → ready (tiers ++ [tier]) t q ↔ ready tiers t q.
Proof.
  intros Hle. unfold ready. split; intros H d Hd.
  - eapply placed_before_snoc, H; done.
  - eapply placed_before_snoc; [done|]. by apply H.
Qed.

Lemma depsMet_ready processed tiers q :
  (∀ d, d ∈ processed ↔ d ∈ id <$> concat tiers) →
  depsMet processed q = true ↔ ready tiers (length tiers) q.
Proof.
  intros Hp. rewrite depsMet_true. unfold ready.
  split; intros H d Hd.
  - apply placed_before_length, Hp, H, Hd.
  - apply Hp, placed_before_length, H, Hd.
Qed.

(** *** The invariant *)

Section Loop.

Variable all : list Quest.

Lemma tiers_inv_init : tiers_inv all all [] [].
Proof.
  split_and!; simpl.
  - done.
  - intros d. by rewrite !elem_of_nil.
  - intros t q (x & Hx & _). done.
  - intros q _ t' Ht'. lia.
Qed.

Lemma tiers_inv_round rem processed tiers :
  tiers_inv all rem processed tiers →
  tiers_inv all
    (filter (λ q, depsMet processed q = false) rem)
    (foldl (λ s quest, set_add (id quest) s) processed
       (filter (λ q, depsMet processed q = true) rem))
    (tiers ++ [filter (λ q, depsMet processed q = true) rem]).
Proof.
  intros (Hperm & Hproc & Htiers & Hrem).
  set (now := filter (λ q, depsMet processed q = true) rem).
  set (later := filter (λ q, depsMet processed q = false) rem).
  split_and!.
  - rewrite concat_app. simpl. rewrite app_nil_r, <- app_assoc.
    unfold now, later. by rewrite round_Permutation.
  - intros d. rewrite processed_after, Hproc, concat_app. simpl.
    by rewrite app_nil_r, fmap_app, elem_of_app.
  - intros t q [Hin|[-> Hq]]%in_tier_snoc.
    + destruct (Htiers t q Hin) as [Hr Hmin].
      apply in_tier_lt in Hin as Hlt. split.
      * apply ready_snoc; [lia|done].
      * intros t' Ht' Hr'. apply (Hmin t' Ht').
        eapply ready_snoc, Hr'. lia.
    + apply list_elem_of_filter in Hq as [Hmet Hq]. split.
      * apply ready_snoc; [done|]. by eapply depsMet_ready.
      * intros t' Ht' Hr'. apply (Hrem q Hq t' Ht').
        eapply ready_snoc, Hr'. lia.
  - intros q [Hmet Hq]%list_elem_of_filter t'.
    rewrite length_app. simpl. intros Ht' Hr'.
    destruct (decide (t' = length tiers)) as [->|Hne].
    + apply ready_snoc in Hr'; [|done].
      eapply depsMet_ready in Hr'; [|done]. congruence.
    + apply (Hrem q Hq t'); [lia|]. eapply ready_snoc, Hr'. lia.
Qed.

(** The loop ends within the bound, either with all quests placed or
    with a non-empty rest in which no quest has its dependencies
    met. *)
Lemma tier_loop_spec fuel rem processed tiers :
  length rem ≤ fuel →
  tiers_inv all rem processed tiers →
  (∃ processed' tiers',
      tier_loop fuel rem processed tiers = Some (Done tiers')
      ∧ tiers_inv all [] processed' tiers')
  ∨ (∃ stuck processed' tiers',
      tier_loop fuel rem processed tiers = Some (Circular stuck)
      ∧ tiers_inv all stuck processed' tiers'
      ∧ stuck ≠ []
      ∧ ∀ q, q ∈ stuck → depsMet processed' q = false).
Proof.
  revert rem processed tiers.
  induction fuel as [|fuel IH]; intros rem processed tiers Hle Hinv.
  - destruct rem as [|q rem]; [|simpl in Hle; lia].
    left. by exists processed, tiers.
  - destruct rem as [|q0 rem0] eqn:Erem.
    { left. by exists processed, tiers. }
    rewrite <- Erem in *. assert (rem ≠ []) as Hne by by rewrite Erem.
    replace (tier_loop (S fuel) rem processed tiers) with
      (let '(currentTier, questsForNextRound) := round processed rem in
       if (length currentTier =? 0)%nat
          && (0 <? length questsForNextRound)%nat
       then Some (Circular questsForNextRound)
       else
         tier_loop fuel questsForNextRound
           (foldl (λ s quest, set_add (id quest) s) processed currentTier)
           (tiers ++ [currentTier])) by by rewrite Erem.
    clear Erem q0 rem0. rewrite round_filter.
    pose proof (round_Permutation processed rem) as Hsplit.
    pose proof (tiers_inv_round rem processed tiers Hinv) as Hnext.
    destruct (filter (λ q, depsMet processed q = true) rem)
      as [|q1 now'] eqn:Enow.
    + simpl in Hsplit.
      assert (filter (λ q, depsMet processed q = false) rem = rem) as Hlater.
      { clear -Enow. induction rem as [|q rem IH]; [done|].
        destruct (depsMet processed q) eqn:E.
        - rewrite filter_cons_True in Enow by done. done.
        - rewrite filter_cons_False in Enow by (by rewrite E).
          rewrite filter_cons_True by done. f_equal. auto. }
      right. exists rem, processed, tiers.
      rewrite Hlater. destruct rem as [|q rem'] eqn:Erem; [done|].
      rewrite <- Erem in *. simpl.
      split_and!; [by rewrite Erem|done|done|].
      intros q' Hq'. rewrite <- Hlater in Hq'.
      by apply list_elem_of_filter in Hq' as [? _].
    + cbn [length Nat.eqb andb]. apply IH; [|done].
      apply Permutation_length in Hsplit.
      rewrite length_app in Hsplit. simpl in Hsplit. lia.
Qed.

End Loop.

End TierFacts.

(** ** The tier sorter: graphs *)

Module SorterFacts.
Import GenerateTiers PassFacts TierFacts.

Lemma tc_tc (R : relation string) x y : tc (tc R) x y → tc R x y.
Proof.
  induction 1 as [x y H|x y z H _ IH]; [done|]. by eapply tc_trans.
Qed.

(** In a finite non-empty set in which every element has a successor
    there is a cycle. *)
Lemma no_sink_cycle (l : list string) : ∀ R : relation string,
  l ≠ [] → (∀ x, x ∈ l → ∃ y, y ∈ l ∧ R x y) → ∃ x, tc R x x.
Proof.
  induction l as [|a l IH]; intros R Hne Hsucc; [done|].
  destruct (Hsucc a) as (z & Hz & Haz); [left|].
  apply elem_of_cons in Hz as [->|Hz].
  { exists a. by apply tc_once. }
  destruct (IH (tc R)) as [x Hx].
  - intros ->. by apply elem_of_nil in Hz.
  - intros x Hx. destruct (Hsucc x) as (y & Hy & Hxy); [by right|].
    apply elem_of_cons in Hy as [->|Hy].
    + exists z. split; [done|]. eapply tc_l; [exact Hxy|by apply tc_once].
    + exists y. split; [done|]. by apply tc_once.
  - exists x. by apply tc_tc.
Qed.

(** A numbering that decreases along every edge excludes cycles. *)
Lemma acyclic_by_rank (R : relation string) (rank : string → nat) :
  (∀ a b, R a b → rank b < rank a) → acyclic R.
Proof.
  intros Hrank.
  assert (∀ a b, tc R a b → rank b < rank a) as Htc.
  { induction 1 as [a b H|a b c H _ IH]; [auto|]. apply Hrank in H. lia. }
  intros x Hx. apply Htc in Hx. lia.
Qed.

Lemma depsMet_false processed q :
  depsMet processed q = false → ∃ d, d ∈ dependencies q ∧ d ∉ processed.
Proof.
  unfold depsMet. induction (dependencies q) as [|d ds IH]; simpl; [done|].
  destruct (set_has d processed) eqn:E; simpl.
  - intros (d' & ? & ?)%IH. exists d'. split; [by right|done].
  - intros _. exists d. split; [left|by apply set_has_false].
Qed.

Lemma in_tier_unique tiers t t' (q : Quest) :
  NoDup (concat tiers) → in_tier tiers t q → in_tier tiers t' q → t = t'.
Proof.
  revert t t'. induction tiers as [|tier tiers IH]; intros t t' Hnd.
  { intros (x & Hx & _). done. }
  simpl in Hnd. apply NoDup_app in Hnd as (_ & Hdisj & Hnd).
  assert (∀ n, in_tier (tier :: tiers) (S n) q → q ∈ concat tiers) as Hlater.
  { intros n (x & Hx & Hq). apply elem_of_concat. exists x. split; [|done].
    by eapply list_elem_of_lookup_2. }
  assert (in_tier (tier :: tiers) 0 q → q ∈ tier) as Hfirst.
  { by intros (x & [= <-] & Hq). }
  destruct t as [|t], t' as [|t']; intros H H'.
  - done.
  - destruct (Hdisj q); auto. by eapply Hlater.
  - destruct (Hdisj q); auto. by eapply Hlater.
  - f_equal. by apply IH.
Qed.

Lemma map_get_from_last {V} (l1 l2 : list (string * V)) k v :
  k ∉ l2.*1 → map_get k (map_from (l1 ++ (k, v) :: l2)) = Some v.
Proof.
  induction l2 as [|[k' v'] l2 IH] using rev_ind; intros Hk.
  - rewrite map_get_from_snoc. by rewrite decide_True.
  - rewrite fmap_app, elem_of_app in Hk. simpl in Hk.
    rewrite list_elem_of_singleton in Hk.
    rewrite app_comm_cons, (assoc_L (++)), map_get_from_snoc.
    rewrite decide_False by (intros ->; apply Hk; by right).
    apply IH. intros ?. apply Hk. by left.
Qed.

Section Input.

Variable questMap : list (string * RawData.RawQuest).

Local Abbreviation all := (map_values (allQuests_of questMap)).
Local Abbreviation R := (resolved_dep questMap).

Lemma resolved_dep_quest q b :
  q ∈ all → R (id q) b ↔ b ∈ dependencies q.
Proof.
  intros Hq%allQuests_value. unfold R, resolved_dep, depends_on.
  split; [|by exists q]. rewrite Hq. by intros (? & [= <-] & ?).
Qed.

Lemma resolved_dep_source a b :
  R a b → ∃ q, q ∈ all ∧ id q = a ∧ b ∈ dependencies q.
Proof.
  intros (q & Hq & Hb). exists q.
  apply allQuests_get_Some in Hq as Hr.
  destruct Hr as (entry & _ & [= -> ->]). simpl in *.
  split_and!; [|done..]. by apply allQuests_value.
Qed.

Section Invariant.

Variables (rem : list Quest) (processed : list string)
          (tiers : list (list Quest)).
Hypothesis Hinv : tiers_inv all rem processed tiers.

Lemma placed_in_all n q : in_tier tiers n q → q ∈ all.
Proof.
  intros Hq. destruct Hinv as (Hperm & _). rewrite <- Hperm.
  apply elem_of_app. left. apply in_tier_concat. by exists n.
Qed.

(** Along the dependency relation the tier number goes down. *)
Lemma placed_descends a b :
  tc R a b →
  ∀ n qa, in_tier tiers n qa → id qa = a →
          ∃ m qb, m < n ∧ in_tier tiers m qb ∧ id qb = b.
Proof.
  destruct Hinv as (_ & _ & Htiers & _).
  assert (∀ a b n qa, R a b → in_tier tiers n qa → id qa = a →
            ∃ m qb, m < n ∧ in_tier tiers m qb ∧ id qb = b) as Hone.
  { clear a b. intros a b n qa Hab Hin <-.
    apply resolved_dep_quest in Hab; [|by eapply placed_in_all].
    destruct (Htiers n qa Hin) as [Hready _].
    destruct (Hready b Hab) as (m & qb & ? & ? & ?). by exists m, qb. }
  induction 1 as [a b Hab|a c b Hac _ IH]; intros n qa Hin Hid.
  - by eapply Hone.
  - destruct (Hone a c n qa Hac Hin Hid) as (m & qc & Hlt & Hin' & Hid').
    destruct (IH m qc Hin' Hid') as (k & qb & ? & ? & ?).
    exists k, qb. split_and!; [lia|done..].
Qed.

Lemma placed_not_on_cycle n q : in_tier tiers n q → ¬ tc R (id q) (id q).
Proof.
  revert q. induction n as [n IH] using lt_wf_ind. intros q Hin Hcyc.
  destruct (placed_descends _ _ Hcyc n q Hin eq_refl)
    as (m & q' & Hlt & Hin' & Hid).
  apply (IH m Hlt q' Hin'). by rewrite Hid.
Qed.

(** What is on a cycle is among the remaining quests. *)
Lemma cycle_remains y : tc R y y → ∃ q, q ∈ rem ∧ id q = y.
Proof.
  intros Hcyc.
  assert (∃ z, R y z) as [z Hyz].
  { inversion Hcyc; eauto. }
  apply resolved_dep_source in Hyz as (q & Hq & <- & _).
  exists q. split; [|done].
  destruct Hinv as (Hperm & _). rewrite <- Hperm in Hq.
  apply elem_of_app in Hq as [Hq|Hq]; [|done].
  apply in_tier_concat in Hq as [n Hn].
  by destruct (placed_not_on_cycle n q Hn).
Qed.

(** A remaining quest with an unmet dependency depends on a remaining
    quest. *)
Lemma unmet_dep_remains q :
  q ∈ rem → depsMet processed q = false →
  ∃ q', q' ∈ rem ∧ id q' ∈ dependencies q.
Proof.
  intros Hq (d & Hd & Hnp)%depsMet_false.
  destruct Hinv as (Hperm & Hproc & _).
  assert (q ∈ all) as Hqall.
  { rewrite <- Hperm. apply elem_of_app. by right. }
  pose proof (allQuests_closed questMap q d Hqall Hd) as Hdall.
  apply list_elem_of_fmap in Hdall as (q' & -> & Hq').
  exists q'. split; [|done]. change (q' ∈ all) in Hq'.
  rewrite <- Hperm in Hq'. apply elem_of_app in Hq' as [Hq'|Hq']; [|done].
  destruct Hnp. apply Hproc. by apply list_elem_of_fmap_2.
Qed.

End Invariant.

(** Every edge of the resolved graph comes from an edge between titles. *)
Lemma resolved_dep_titles x y :
  R x y →
  ∃ a b, x = generateId a ∧ y = generateId b ∧ title_dep questMap a b.
Proof.
  intros (q & Hq & Hy).
  apply allQuests_get_Some in Hq as ([a data] & Hentry & [= -> ->]).
  simpl in Hy. apply dependencyIds_elem in Hy as (_ & b & Hb & Hget).
  rewrite titleToIdMap_get in Hget.
  destruct (decide (b ∈ questMap.*1)) as [Hin|]; [|done].
  injection Hget as <-. exists a, b. split_and!; [done..|]. by exists data.
Qed.

(** Without slug collisions, an input that is acyclic on its titles has an
    acyclic resolved graph. *)
Lemma acyclic_titles_resolved :
  distinct_slugs questMap → acyclic (title_dep questMap) → acyclic R.
Proof.
  intros Hinj Hacyclic.
  assert (∀ x y, tc R x y →
            ∀ a, a ∈ questMap.*1 → x = generateId a →
                 ∃ b, b ∈ questMap.*1 ∧ y = generateId b
                      ∧ tc (title_dep questMap) a b) as Hlift.
  { assert (∀ x y a, R x y → a ∈ questMap.*1 → x = generateId a →
              ∃ b, b ∈ questMap.*1 ∧ y = generateId b
                   ∧ title_dep questMap a b) as Hone.
    { intros x y a (a' & b & -> & -> & Hab)%resolved_dep_titles Ha Hslug.
      assert (a' ∈ questMap.*1) as Ha'.
      { destruct Hab as (data & Hin & _).
        apply list_elem_of_fmap. by exists (a', data). }
      rewrite <- (Hinj a a' Ha Ha' (eq_sym Hslug)) in Hab.
      exists b. split_and!; [|done..]. by destruct Hab as (_ & _ & _ & ?). }
    induction 1 as [x y Hxy|x z y Hxz _ IH]; intros a Ha Hslug.
    - destruct (Hone x y a Hxy Ha Hslug) as (b & ? & ? & ?).
      exists b. split_and!; [done..|]. by apply tc_once.
    - destruct (Hone x z a Hxz Ha Hslug) as (c & Hc & Hz & Hac).
      destruct (IH c Hc Hz) as (b & ? & ? & ?).
      exists b. split_and!; [done..|]. by eapply tc_l. }
  intros x Hx.
  assert (∃ a, a ∈ questMap.*1 ∧ x = generateId a) as (a & Ha & Hslug).
  { assert (∃ y, R x y) as [y Hxy] by (inversion Hx; eauto).
    apply resolved_dep_titles in Hxy as (a & b & -> & _ & data & Hin & _).
    exists a. split; [|done]. apply list_elem_of_fmap. by exists (a, data). }
  destruct (Hlift x x Hx a Ha Hslug) as (b & Hb & Hslug' & Hab).
  rewrite Hslug in Hslug'. apply Hinj in Hslug'; [|done..]. subst b.
  by destruct (Hacyclic a).
Qed.

(** The loop of [main], started as [main] starts it. *)
Lemma main_loop :
  (∃ processed tiers,
      tier_loop (length all) all [] [] = Some (Done tiers)
      ∧ tiers_inv all [] processed tiers)
  ∨ (∃ stuck processed tiers,
      tier_loop (length all) all [] [] = Some (Circular stuck)
      ∧ tiers_inv all stuck processed tiers
      ∧ stuck ≠ []
      ∧ ∀ q, q ∈ stuck → depsMet processed q = false).
Proof. apply tier_loop_spec; [done|apply tiers_inv_init]. Qed.

(** A rest that cannot be placed contains a cycle. *)
Lemma stuck_cycle stuck processed tiers :
  tiers_inv all stuck processed tiers → stuck ≠ [] →
  (∀ q, q ∈ stuck → depsMet processed q = false) →
  ∃ x, tc R x x.
Proof.
  intros Hinv Hne Hunmet. apply (no_sink_cycle (id <$> stuck)).
  - by destruct stuck.
  - intros x (q & -> & Hq)%list_elem_of_fmap.
    destruct (unmet_dep_remains _ _ _ Hinv q Hq (Hunmet q Hq))
      as (q' & Hq' & Hdep).
    exists (id q'). split; [by apply list_elem_of_fmap_2|].
    apply resolved_dep_quest; [|done].
    destruct Hinv as (Hperm & _). rewrite <- Hperm.
    apply elem_of_app. by right.
Qed.

Lemma main_unfold :
  main questMap
  = match tier_loop (length all) all [] [] with
    | None => None
    | Some (Circular questsForNextRound) =>
        Some {| console :=
                  (([console_log "Reading questData.json..."]
                      ++ (first_pass questMap.*1).2)
                     ++ [console_log "Sorting quests into tiers..."])
                    ++ [console_error "Error: Circular dependency detected!";
                        console_error
                          "The following quests could not be sorted:"]
                    ++ (stuck_line <$> questsForNextRound);
                written := None |}
    | Some (Done questTiers) =>
        Some {| console :=
                  (([console_log "Reading questData.json..."]
                      ++ (first_pass questMap.*1).2)
                     ++ [console_log "Sorting quests into tiers..."])
                    ++ [console_log
                          ("Sorted "
                             +:+ decimal (length (allQuests_of questMap))
                             +:+ " quests into "
                             +:+ decimal (length questTiers) +:+ " tiers.");
                        console_log
                          ("Successfully generated: " +:+ outputPath)];
                written := Some questTiers |}
    end.
Proof.
  unfold main, all, allQuests_of, titleToIdMap_of.
  by destruct (first_pass questMap.*1).
Qed.

End Input.

End SorterFacts.

(** ** The tier sorter: what [main] emits *)

Import GenerateTiers.

Example generateId_example : generateId "A Bad Feeling" = "a_bad_feeling".
Proof. reflexivity. Qed.

Example generateId_strips : generateId "  What's   Next?! " = "whats_next".
Proof. reflexivity. Qed.

Example main_scraped :
  written <$> main Samples.scraped
  = Some (Some
      [[{| id := "a_bad_feeling"; title := "A Bad Feeling";
           url := "https://arcraiders.wiki/wiki/Quests"; dependencies := [] |}];
       [{| id := "bees"; title := "Bees!";
           url := "https://arcraiders.wiki/wiki/Quests";
           dependencies := ["a_bad_feeling"] |}];
       [{| id := "whats_next"; title := "What's Next";
           url := "https://arcraiders.wiki/wiki/Quests";
           dependencies := ["bees"] |}]]).
Proof. reflexivity. Qed.

(** [main] always runs to its end. *)
Lemma main_returns questMap : ∃ run, main questMap = Some run.
Proof.
  rewrite SorterFacts.main_unfold.
  destruct (SorterFacts.main_loop questMap)
    as [(p & tiers & -> & _)|(stuck & p & tiers & -> & _)]; by eexists.
Qed.

(** What the loop leaves when the graph it sorts has no cycle. *)
Lemma main_sorts questMap :
  acyclic (resolved_dep questMap) →
  ∃ run questTiers processed,
    main questMap = Some run
    ∧ written run = Some questTiers
    ∧ tiers_inv (map_values (allQuests_of questMap)) [] processed questTiers.
Proof.
  intros Hacyclic. rewrite SorterFacts.main_unfold.
  destruct (SorterFacts.main_loop questMap)
    as [(p & tiers & -> & Hinv)|(stuck & p & tiers & _ & Hinv & Hne & Hunmet)].
  - by eexists _, tiers, p.
  - destruct (SorterFacts.stuck_cycle questMap stuck p tiers Hinv Hne Hunmet)
      as [x Hx].
    by destruct (Hacyclic x).
Qed.

Lemma acyclic_resolved_graph questMap :
  acyclic (resolved_graph questMap) ↔ acyclic (resolved_dep questMap).
Proof.
  unfold acyclic. split; intros H x Hx; apply (H x);
    revert Hx; apply TraversalFacts.tc_iff; intros a b;
    by rewrite PassFacts.resolved_dep_graph.
Qed.

(** C3, as stated, fails. The input in which ["Bees!"] lists ["Bees"] is
    acyclic, but both titles have the slug [bees], the quest kept for it
    lists itself, and the run ends with the cycle error and writes
    nothing. And on the acyclic input with the two titles ["Bees"] and
    ["Bees!"] alone, the catalog that is written has one quest, titled
    ["Bees!"], and none for ["Bees"]. *)
Theorem tier_sorter_acyclic_input_unsorted :
  acyclic (title_dep Samples.shadowed)
  ∧ main Samples.shadowed
    = Some {| console :=
                [console_log "Reading questData.json...";
                 console_log "Sorting quests into tiers...";
                 console_error "Error: Circular dependency detected!";
                 console_error "The following quests could not be sorted:";
                 console_log "- Bees! (Dependencies: bees)"];
              written := None |}
  ∧ acyclic (title_dep Samples.colliding)
  ∧ written <$> main Samples.colliding
    = Some (Some [[{| id := "bees"; title := "Bees!";
                      url := "https://arcraiders.wiki/wiki/Quests";
                      dependencies := [] |}]]).
Proof.
  split_and!; [|reflexivity| |reflexivity].
  - apply (SorterFacts.acyclic_by_rank _ Samples.shadowed_rank).
    intros a b (data & Hin & Hb & _).
    repeat (apply elem_of_cons in Hin as [[= -> ->]|Hin];
            [simpl in Hb;
             repeat (apply elem_of_cons in Hb as [->|Hb]; [vm_compute; lia|]);
             by apply elem_of_nil in Hb|]).
    by apply elem_of_nil in Hin.
  - apply (SorterFacts.acyclic_by_rank _ (λ _, 0)).
    intros a b (data & Hin & Hb & _).
    repeat (apply elem_of_cons in Hin as [[= -> ->]|Hin];
            [simpl in Hb; by apply elem_of_nil in Hb|]).
    by apply elem_of_nil in Hin.
Qed.

(** C3, amended. When the resolved graph of the input is acyclic, and so
    in particular when the input is acyclic on its titles and no two
    titles share a slug, [main] writes a catalog. Its quests are exactly
    the resolved quests: one per slug, standing for the last entry whose
    title has that slug, so there is one for the slug of every input
    title; when titles and slugs are pairwise distinct, every entry of the
    input has its quest in the catalog. No id occurs twice and every quest
    lies in exactly one tier; every dependency of a quest of tier [t] lies
    in a tier below [t]; and no tier below [t] would have been admissible
    for the quest. *)
Theorem tier_sorter_on_dags (questMap : list (string * RawData.RawQuest)) :
  acyclic (resolved_graph questMap)
  ∨ (distinct_slugs questMap ∧ acyclic (title_dep questMap)) →
  ∃ run questTiers,
    main questMap = Some run
    ∧ written run = Some questTiers
    ∧ (∀ q, q ∈ concat questTiers ↔ kept_quest questMap q)
    ∧ (∀ title, title ∈ questMap.*1 →
         ∃ q, q ∈ concat questTiers ∧ id q = generateId title)
    ∧ (NoDup questMap.*1 → distinct_slugs questMap →
       ∀ entry, entry ∈ questMap →
                resolved_quest questMap entry ∈ concat questTiers)
    ∧ NoDup (id <$> concat questTiers)
    ∧ (∀ q, q ∈ concat questTiers →
         ∃ t, in_tier questTiers t q
              ∧ ∀ t', in_tier questTiers t' q → t' = t)
    ∧ (∀ t q, in_tier questTiers t q →
         ready questTiers t q
         ∧ ∀ t', t' < t → ¬ ready questTiers t' q).
Proof.
  intros Hacyclic.
  assert (acyclic (resolved_dep questMap)) as Hres.
  { destruct Hacyclic as [H|[Hslugs H]].
    - by apply acyclic_resolved_graph.
    - by apply SorterFacts.acyclic_titles_resolved. }
  destruct (main_sorts questMap Hres) as (run & tiers & p & Hrun & Hw & Hinv).
  destruct Hinv as (Hperm & _ & Htiers & _). rewrite app_nil_r in Hperm.
  assert (∀ q, q ∈ concat tiers ↔ kept_quest questMap q) as Hkept.
  { intros q. by rewrite Hperm, PassFacts.allQuests_kept. }
  assert (NoDup (id <$> concat tiers)) as Hnd.
  { rewrite Hperm. apply PassFacts.allQuests_ids_NoDup. }
  exists run, tiers. split_and!; [done|done|done| | |done| |done].
  - intros title Htitle.
    assert (generateId title ∈ map_keys (allQuests_of questMap)) as Hk.
    { apply PassFacts.allQuests_key. by apply list_elem_of_fmap_2. }
    apply map_get_is_Some in Hk as [q Hq]. exists q.
    apply PassFacts.allQuests_get_Some in Hq as Hr.
    destruct Hr as (entry & _ & [= Hi ->]).
    split; [|symmetry; exact Hi].
    rewrite Hperm. apply PassFacts.allQuests_value.
    rewrite Hi in Hq. exact Hq.
  - intros Hnodup Hslugs entry Hentry. apply Hkept. exists entry.
    split; [|done]. by apply PassFacts.kept_entry_distinct.
  - intros q [t Ht]%TierFacts.in_tier_concat. exists t. split; [done|].
    intros t' Ht'. eapply SorterFacts.in_tier_unique; [|done..].
    by eapply NoDup_fmap_1.
Qed.

Lemma scraped_distinct_slugs : distinct_slugs Samples.scraped.
Proof.
  intros a b Ha Hb Hslug.
  unfold Samples.scraped in Ha, Hb. csimpl in Ha. csimpl in Hb.
  repeat (apply elem_of_cons in Ha as [->|Ha]);
    [..|by apply elem_of_nil in Ha];
    (repeat (apply elem_of_cons in Hb as [->|Hb]);
     [..|by apply elem_of_nil in Hb]);
    first [reflexivity|vm_compute in Hslug; discriminate].
Qed.

Lemma scraped_titles_acyclic : acyclic (title_dep Samples.scraped).
Proof.
  apply (SorterFacts.acyclic_by_rank _ Samples.scraped_title_rank).
  intros a b (data & Hin & Hb & _).
  repeat (apply elem_of_cons in Hin as [[= -> ->]|Hin];
          [simpl in Hb;
           repeat (apply elem_of_cons in Hb as [->|Hb]; [vm_compute; lia|]);
           by apply elem_of_nil in Hb|]).
  by apply elem_of_nil in Hin.
Qed.

Lemma tier_sorter_on_dags_witness :
  distinct_slugs Samples.scraped
  ∧ acyclic (title_dep Samples.scraped)
  ∧ ∃ run questTiers,
      main Samples.scraped = Some run
      ∧ written run = Some questTiers
      ∧ (∀ q, q ∈ concat questTiers ↔ kept_quest Samples.scraped q)
      ∧ (∀ title, title ∈ Samples.scraped.*1 →
           ∃ q, q ∈ concat questTiers ∧ id q = generateId title)
      ∧ (NoDup Samples.scraped.*1 → distinct_slugs Samples.scraped →
         ∀ entry, entry ∈ Samples.scraped →
                  resolved_quest Samples.scraped entry ∈ concat questTiers)
      ∧ NoDup (id <$> concat questTiers)
      ∧ (∀ q, q ∈ concat questTiers →
           ∃ t, in_tier questTiers t q
                ∧ ∀ t', in_tier questTiers t' q → t' = t)
      ∧ (∀ t q, in_tier questTiers t q →
           ready questTiers t q
           ∧ ∀ t', t' < t → ¬ ready questTiers t' q).
Proof.
  split; [exact scraped_distinct_slugs|].
  split; [exact scraped_titles_acyclic|].
  exact (tier_sorter_on_dags Samples.scraped
           (or_intror (conj scraped_distinct_slugs scraped_titles_acyclic))).
Defined.




(** The titles of [Samples.looping] form a chain without a cycle; the
    cycle only arises when ["Bees"] and ["Bees!"] resolve to one id. *)
Example looping_titles_acyclic : acyclic (title_dep Samples.looping).
Proof.
  apply (SorterFacts.acyclic_by_rank _ Samples.looping_rank).
  intros a b (data & Hin & Hb & _).
  repeat (apply elem_of_cons in Hin as [[= -> ->]|Hin];
          [simpl in Hb;
           repeat (apply elem_of_cons in Hb as [->|Hb]; [vm_compute; lia|]);
           by apply elem_of_nil in Hb|]).
  by apply elem_of_nil in Hin.
Qed.

Example main_looping :
  main Samples.looping
  = Some {| console :=
              [console_log "Reading questData.json...";
               console_log "Sorting quests into tiers...";
               console_error "Error: Circular dependency detected!";
               console_error "The following quests could not be sorted:";
               console_log "- Bees! (Dependencies: x)";
               console_log "- X (Dependencies: bees)"];
            written := None |}.
Proof. reflexivity. Qed.

(** ** Slug collisions *)

(** C5, as stated, fails: ["Bees"] and ["Bees!"] are distinct titles with
    the same slug, and the run on them prints no warning. *)
Lemma slug_collision_not_logged :
  "Bees" ≠ "Bees!"
  ∧ generateId "Bees" = generateId "Bees!"
  ∧ ∃ run, main Samples.colliding = Some run
           ∧ ∀ text, console_warn text ∉ console run.
Proof.
  split_and!; [done|reflexivity|].
  eexists. split; [reflexivity|]. intros text H. vm_compute in H.
  repeat (apply elem_of_cons in H as [?|H]; [discriminate|]).
  by apply elem_of_nil in H.
Qed.

(** C5, amended. The titles of the input object are pairwise distinct, so
    the duplicate check, which looks the title up, never fires: no warning
    is printed, whatever the slugs. [titleToIdMap] keeps every title with
    its slug, and in [allQuests] the quest stored under a slug is the one
    built from the last title with that slug. *)
Theorem slug_collision_last_write_wins
    (questMap : list (string * RawData.RawQuest)) :
  NoDup questMap.*1 →
  (∃ run, main questMap = Some run ∧ ∀ text, console_warn text ∉ console run)
  ∧ (∀ title, title ∈ questMap.*1 →
       map_get title (titleToIdMap_of questMap) = Some (generateId title))
  ∧ (∀ before title data after,
       questMap = before ++ (title, data) :: after →
       (∀ later, later ∈ after.*1 → generateId later ≠ generateId title) →
       ∃ q, map_get (generateId title) (allQuests_of questMap) = Some q
            ∧ QuestData.title q = title
            ∧ QuestData.url q = RawData.url data).
Proof.
  intros Hnd. split_and!.
  - destruct (main_returns questMap) as [run Hrun]. exists run.
    split; [done|]. intros text.
    rewrite SorterFacts.main_unfold in Hrun.
    rewrite PassFacts.first_pass_no_warning in Hrun by done.
    destruct (tier_loop _ _ _ _) as [[stuck|tiers]|]; [| |done];
      injection Hrun as <-; simpl.
    + rewrite !elem_of_cons, list_elem_of_fmap.
      intros [?|[?|[?|[?|(q & ? & _)]]]]; done.
    + rewrite !elem_of_cons, elem_of_nil.
      intros [?|[?|[?|[?|?]]]]; done.
  - intros title Htitle. rewrite PassFacts.titleToIdMap_get.
    by rewrite decide_True.
  - intros before title data after -> Hlast.
    rewrite PassFacts.allQuests_map_from, fmap_app, fmap_cons.
    set (tm := titleToIdMap_of (before ++ (title, data) :: after)).
    exists (resolve tm (title, data)).2. split; [|done].
    apply (SorterFacts.map_get_from_last _ _ (generateId title)).
    rewrite <- list_fmap_compose.
    intros (entry & Hslug & Hentry)%list_elem_of_fmap.
    apply (Hlast entry.1); [by apply list_elem_of_fmap_2|]. by rewrite Hslug.
Qed.

Lemma slug_collision_last_write_wins_witness :
  NoDup Samples.colliding.*1
  ∧ (∃ run, main Samples.colliding = Some run
            ∧ ∀ text, console_warn text ∉ console run)
  ∧ ∃ q, map_get (generateId "Bees!") (allQuests_of Samples.colliding) = Some q
         ∧ QuestData.title q = "Bees!"
         ∧ QuestData.url q = RawData.url (Samples.raw []).
Proof.
  assert (NoDup Samples.colliding.*1) as Hnd.
  { apply (bool_decide_unpack _). vm_compute. exact I. }
  destruct (slug_collision_last_write_wins Samples.colliding Hnd)
    as (Hquiet & _ & Hlast).
  split_and!; [exact Hnd|exact Hquiet|].
  apply (Hlast [("Bees", Samples.raw [])] "Bees!" (Samples.raw []) []).
  - reflexivity.
  - intros later []%elem_of_nil.
Defined.

Example colliding_allQuests :
  allQuests_of Samples.colliding
  = [("bees", {| id := "bees"; title := "Bees!";
                 url := "https://arcraiders.wiki/wiki/Quests";
                 dependencies := [] |})].
Proof. reflexivity. Qed.

(** * Further properties *)

(** ** The progress store and the traversals together *)

Module StoreFacts.
Import MoreNotions.

Lemma elem_of_toggleQuest i s x :
  x ∈ toggleQuest i s ↔ (x = i ∧ i ∉ s) ∨ (x ≠ i ∧ x ∈ s).
Proof.
  unfold toggleQuest. destruct (set_has i s) eqn:E.
  - apply set_has_true in E. rewrite elem_of_set_delete. split.
    + intros [? ?]. by right.
    + intros [[_ ?]|?]; done.
  - apply set_has_false in E. rewrite elem_of_set_add. split.
    + intros [->|Hx]; [by left|]. right. split; [|done]. by intros ->.
    + intros [[-> _]|[_ ?]]; auto.
Qed.

Lemma getQuestAvailability_true quest completedQuests :
  getQuestAvailability quest completedQuests = true
  ↔ (id quest ∉ completedQuests)
    ∧ ∀ d, d ∈ dependencies quest → d ∈ completedQuests.
Proof.
  unfold getQuestAvailability.
  destruct (set_has (id quest) completedQuests) eqn:E.
  - apply set_has_true in E. split; [done|]. by intros [? _].
  - apply set_has_false in E. rewrite forallb_forall. split.
    + intros H. split; [done|]. intros d Hd.
      apply set_has_true, H. by apply list_elem_of_In.
    + intros [_ H] d Hd. apply set_has_true, H. by apply list_elem_of_In.
Qed.

Section Catalog.

Variable questTiers : list (list Quest).








End Catalog.

End StoreFacts.

Import MoreNotions.

(** X1. [toggleQuest] flips the membership of the id and of nothing else,
    whatever the state of the quest. Toggling twice gives back the same
    members; the list itself comes back when the id was not completed, and
    otherwise the id has moved to the end. *)
Theorem toggleQuest_twice (i : string) (completedQuests : list string) :
  (∀ x, x ∈ toggleQuest i completedQuests
        ↔ (x = i ∧ i ∉ completedQuests) ∨ (x ≠ i ∧ x ∈ completedQuests))
  ∧ (∀ x, x ∈ toggleQuest i (toggleQuest i completedQuests)
          ↔ x ∈ completedQuests)
  ∧ (i ∉ completedQuests →
     toggleQuest i (toggleQuest i completedQuests) = completedQuests)
  ∧ (i ∈ completedQuests →
     toggleQuest i (toggleQuest i completedQuests)
     = set_delete i completedQuests ++ [i]).
Proof.
  split_and!.
  - intros x. apply StoreFacts.elem_of_toggleQuest.
  - intros x. rewrite !StoreFacts.elem_of_toggleQuest.
    destruct (decide (x = i)) as [->|Hne]; [|tauto].
    destruct (decide (i ∈ completedQuests)); tauto.
  - intros Hi. unfold toggleQuest at 2.
    apply set_has_false in Hi as Hf. rewrite Hf, set_add_fresh by done.
    unfold toggleQuest.
    assert (set_has i (completedQuests ++ [i]) = true) as ->.
    { apply set_has_true, elem_of_app. right. left. }
    unfold set_delete. rewrite filter_app, filter_cons_False, filter_nil
      by (intros H; by apply H).
    rewrite app_nil_r. by apply set_delete_absent.
  - intros Hi. unfold toggleQuest at 2.
    apply set_has_true in Hi as Ht. rewrite Ht.
    unfold toggleQuest.
    assert (i ∉ set_delete i completedQuests) as Hgone.
    { rewrite elem_of_set_delete. by intros [? _]. }
    apply set_has_false in Hgone as Hf. rewrite Hf.
    by apply set_add_fresh, set_has_false.
Qed.





(** X4. Rewinding twice from the same id gives what rewinding once gave,
    as a list. *)
Theorem uncompleteDependants_idempotent
    (questTiers : list (list Quest)) (questId : string)
    (completedQuests : list string) :
  ∃ once,
    uncompleteDependants questTiers questId completedQuests = Some once
    ∧ uncompleteDependants questTiers questId once = Some once.
Proof.
  destruct (TraversalFacts.dependants_loop questTiers questId)
    as (seen & Hrun & _).
  unfold uncompleteDependants. rewrite Hrun. simpl.
  eexists. split; [done|]. f_equal.
  rewrite (set_from_NoDup (set_difference _ _))
    by apply NoDup_set_difference, NoDup_set_from.
  unfold set_difference. rewrite list_filter_filter.
  apply list_filter_iff. tauto.
Qed.







(** ** The cards and the page *)

Module PageFacts.
Import MoreNotions StoreFacts.

Section Catalog.

Variable questTiers : list (list Quest).




End Catalog.

End PageFacts.





(** The condition on the quest is needed: the card of a quest that lists
    itself stays blocked after "Fast-forward here", which completes
    nothing. *)
Example self_dependent_stays_blocked :
  deps_closed MoreSamples.self_dependent []
  ∧ IndexPage.handle MoreSamples.self_dependent
      (QuestNode.complete_prerequisites "a") [] = Some []
  ∧ QuestNode.onClick
      (IndexPage.node_props MoreSamples.self_dependent
         (Samples.quest "a" ["a"]) [] "")
    = None.
Proof.
  split_and!; [|reflexivity..]. by intros x d []%elem_of_nil.
Qed.

(** After a reset nothing is completed, and the available quests are
    exactly those without dependencies. *)
Theorem reset_availability (quest : Quest) (completedQuests : list string) :
  resetProgress completedQuests = []
  ∧ (getQuestAvailability quest (resetProgress completedQuests) = true
     ↔ dependencies quest = []).
Proof.
  split; [done|]. rewrite StoreFacts.getQuestAvailability_true.
  unfold resetProgress. split.
  - intros [_ H]. destruct (dependencies quest) as [|d ds]; [done|].
    by destruct (not_elem_of_nil d (H d (list_elem_of_here _ _))).
  - intros ->. split; [apply not_elem_of_nil|]. by intros d []%elem_of_nil.
Qed.

(** ** Hydration and persistence *)

(** X9. Hydration runs once: whatever the storage holds and whether or
    not reading it fails, the first [onMounted] leaves the store
    initialized, and a later [onMounted], whatever the storage holds then,
    returns the store it is given untouched, so a set the user has changed
    in between is not overwritten. *)
Theorem hydration_runs_once
    (JSON_parse : string → Completion Json)
    (getItem getItem' : Completion (option string)) (st : Store) :
  ∃ st1,
    onMounted JSON_parse getItem st = Normal st1
    ∧ isInitialized st1 = true
    ∧ onMounted JSON_parse getItem' st1 = Normal st1
    ∧ ∀ st2, isInitialized st2 = true →
             onMounted JSON_parse getItem' st2 = Normal st2.
Proof.
  assert (∀ st2, isInitialized st2 = true →
                 onMounted JSON_parse getItem' st2 = Normal st2) as Hlater.
  { intros st2 Hinit. unfold onMounted. by rewrite Hinit. }
  assert (∃ st1, onMounted JSON_parse getItem st = Normal st1
                 ∧ isInitialized st1 = true) as (st1 & Hrun & Hinit).
  { unfold onMounted. destruct (isInitialized st) eqn:E; [by eexists|].
    destruct getItem as [[text|]|e]; simpl; try by eexists.
    case_bool_decide; [|by eexists].
    destruct (JSON_parse text) as [[]|e]; simpl; by eexists. }
  exists st1. split_and!; auto.
Qed.

(** X10. On the first [onMounted], a failure to read the storage or to
    parse its text is caught: the completed set stays as it was and one
    line is written with [console.error]. When nothing fails, nothing is
    written. *)
Theorem hydration_logs_failures
    (JSON_parse : string → Completion Json)
    (getItem : Completion (option string)) (st : Store) :
  isInitialized st = false →
  ∃ st',
    onMounted JSON_parse getItem st = Normal st'
    ∧ (∀ e,
         getItem = Throw e
         ∨ (∃ text, getItem = Normal (Some text) ∧ text ≠ ""
                    ∧ JSON_parse text = Throw e) →
         completedQuests st' = completedQuests st
         ∧ console_errors st'
           = console_errors st
               ++ ["Error loading quest progress on mount: " +:+ e])
    ∧ ((∀ e, getItem ≠ Throw e) →
       (∀ text e, getItem = Normal (Some text) → text ≠ "" →
                  JSON_parse text ≠ Throw e) →
       console_errors st' = console_errors st).
Proof.
  intros Hinit. unfold onMounted. rewrite Hinit.
  destruct getItem as [[text|]|e0]; simpl.
  - case_bool_decide as Htext.
    + destruct (JSON_parse text) as [[]|e0] eqn:Eparse; simpl;
        (eexists; split; [done|]; split);
        try (intros e [[=]|(text' & [= <-] & _ & Hthrow)]; congruence);
        try done.
      * intros e [[=]|(text' & [= <-] & _ & Hthrow)].
        rewrite Eparse in Hthrow. by injection Hthrow as <-.
      * intros _ Hno. by destruct (Hno text e0 eq_refl Htext).
    + eexists. split; [done|]. split; [|done].
      intros e [[=]|(text' & [= <-] & Hne & _)]. done.
  - eexists. split; [done|]. split; [|done].
    by intros e [[=]|(text' & [=] & _)].
  - eexists. split; [done|]. split.
    + by intros e [[= <-]|(text' & [=] & _)].
    + intros Hno _. by destruct (Hno e0).
Qed.

Lemma hydration_logs_failures_witness :
  isInitialized initial_store = false
  ∧ ∃ st',
      onMounted Samples.parse_sample (Normal (Some "{oops")) initial_store
      = Normal st'
      ∧ completedQuests st' = []
      ∧ console_errors st'
        = ["Error loading quest progress on mount: SyntaxError"].
Proof.
  split; [reflexivity|].
  destruct (hydration_logs_failures Samples.parse_sample
              (Normal (Some "{oops")) initial_store eq_refl)
    as (st' & Hrun & Hfail & _).
  exists st'. split; [exact Hrun|].
  apply (Hfail "SyntaxError"). right. exists "{oops".
  split_and!; [reflexivity| |reflexivity].
  apply (bool_decide_unpack _). vm_compute. exact I.
Defined.

(** X11. What the [watch] stores is read back by the hydration: when
    [JSON.parse] reads the text [JSON.stringify] made of the set back as
    the same array, a fresh start finds exactly that set, in the same
    order, and logs nothing. *)
Theorem persist_hydrate_round_trip
    (JSON_parse : string → Completion Json)
    (JSON_stringify : list string → string)
    (completedQuests : list string) :
  NoDup completedQuests →
  JSON_stringify completedQuests ≠ "" →
  JSON_parse (JSON_stringify completedQuests)
  = Normal (JArray completedQuests) →
  onMounted JSON_parse
    (Normal (Some (Persistence.persisted JSON_stringify completedQuests)))
    initial_store
  = Normal {| isInitialized := true;
              completedQuests := completedQuests;
              console_errors := [] |}.
Proof.
  intros Hnd Hne Hparse. unfold onMounted, Persistence.persisted,
    Persistence.Array_from. simpl.
  rewrite bool_decide_eq_true_2, Hparse by done. simpl.
  by rewrite set_from_NoDup.
Qed.

Lemma persist_hydrate_round_trip_witness :
  NoDup ["a"; "d_e"]
  ∧ MoreSamples.stringify_sample ["a"; "d_e"] ≠ ""
  ∧ MoreSamples.parse_array_sample (MoreSamples.stringify_sample ["a"; "d_e"])
    = Normal (JArray ["a"; "d_e"])
  ∧ onMounted MoreSamples.parse_array_sample
      (Normal (Some (Persistence.persisted MoreSamples.stringify_sample
                       ["a"; "d_e"])))
      initial_store
    = Normal {| isInitialized := true;
                completedQuests := ["a"; "d_e"];
                console_errors := [] |}.
Proof.
  assert (NoDup ["a"; "d_e"]) as Hnd.
  { apply (bool_decide_unpack _). vm_compute. exact I. }
  assert (MoreSamples.stringify_sample ["a"; "d_e"] ≠ "") as Hne.
  { apply (bool_decide_unpack _). vm_compute. exact I. }
  split_and!; [exact Hnd|exact Hne|reflexivity|].
  exact (persist_hydrate_round_trip MoreSamples.parse_array_sample
           MoreSamples.stringify_sample ["a"; "d_e"] Hnd Hne eq_refl).
Defined.

(** ** Slugs *)

Module SlugFacts.
Import MoreNotions.

Local Abbreviation chars := list_ascii_of_string.

(** *** Single characters *)

Ltac all_chars c :=
  destruct c as [[] [] [] [] [] [] [] []]; vm_compute; try done.

(** What the second [replace] keeps and is no white space is a letter or
    a digit; what it keeps and is white space is the space. *)
Lemma kept_not_white c :
  not_lower_alnum_space c = false → is_white_space c = false →
  slug_char c = true ∧ c ≠ underscore.
Proof. all_chars c. Qed.

Lemma lower_alnum_kept c :
  alnum_char c = true →
  is_apostrophe (lower_char c) = false
  ∧ not_lower_alnum_space (lower_char c) = false
  ∧ is_white_space (lower_char c) = false.
Proof. all_chars c. Qed.

Lemma lower_other_white c :
  alnum_char c = false → not_lower_alnum_space (lower_char c) = false →
  is_white_space (lower_char c) = true.
Proof. all_chars c. Qed.

(** *** The stages of [generateId] on the list of characters *)

Lemma chars_toLowerCase s : chars (toLowerCase s) = lower_char <$> chars s.
Proof. induction s as [|c s IH]; [done|]. simpl. by rewrite IH. Qed.

Lemma chars_remove_all class s :
  chars (remove_all class s) = filter (λ c, class c = false) (chars s).
Proof.
  induction s as [|c s IH]; [done|]. simpl. destruct (class c) eqn:E.
  - rewrite filter_cons_False by (by rewrite E). done.
  - rewrite filter_cons_True by done. simpl. by rewrite IH.
Qed.

Lemma chars_rev_app s1 s2 :
  chars (String.rev_app s1 s2) = reverse (chars s1) ++ chars s2.
Proof.
  revert s2. induction s1 as [|c s1 IH]; intros s2; [done|]. simpl.
  by rewrite IH, reverse_cons, <- app_assoc.
Qed.

Lemma chars_rev s : chars (String.rev s) = reverse (chars s).
Proof. unfold String.rev. by rewrite chars_rev_app, app_nil_r. Qed.

Lemma trimStart_suffix s :
  ∃ pre, chars s = pre ++ chars (trimStart s)
         ∧ Forall (λ c, is_white_space c = true) pre.
Proof.
  induction s as [|c s (pre & Hpre & Hwhite)]; [by exists []|]. simpl.
  destruct (is_white_space c) eqn:E.
  - exists (c :: pre). split; [by rewrite Hpre|]. by constructor.
  - by exists [].
Qed.

Lemma trimStart_head s c :
  head (chars (trimStart s)) = Some c → is_white_space c = false.
Proof.
  induction s as [|c0 s IH]; [done|]. simpl.
  destruct (is_white_space c0) eqn:E; [done|]. simpl. by intros [= <-].
Qed.

Lemma trimStart_white s :
  Forall (λ c, is_white_space c = true) (chars s) → trimStart s = "".
Proof.
  induction s as [|c s IH]; [done|]. simpl.
  intros [Hc Hs]%Forall_cons. rewrite Hc. auto.
Qed.

(** [trim] keeps the characters that are no white space, adds none, and
    leaves no white space at either end. *)
Lemma trim_chars s :
  (∀ c, c ∈ chars (trim s) → c ∈ chars s)
  ∧ (∀ c, c ∈ chars s → is_white_space c = false → c ∈ chars (trim s))
  ∧ (∀ c, head (chars (trim s)) = Some c → is_white_space c = false)
  ∧ (∀ c, last (chars (trim s)) = Some c → is_white_space c = false).
Proof.
  unfold trim. rewrite chars_rev.
  destruct (trimStart_suffix s) as (pre & Hs & Hpre).
  destruct (trimStart_suffix (String.rev (trimStart s)))
    as (pre' & Hr & Hpre').
  rewrite chars_rev in Hr.
  set (a := chars (trimStart s)) in *.
  set (b := chars (trimStart (String.rev (trimStart s)))) in *.
  assert (∀ c, c ∈ b → c ∈ a) as Hba.
  { intros c Hc. rewrite <- elem_of_reverse, Hr, elem_of_app. by right. }
  split_and!.
  - intros c. rewrite elem_of_reverse, Hs, elem_of_app. auto.
  - intros c. rewrite elem_of_reverse, Hs, elem_of_app.
    intros [Hc|Hc] Hnw.
    { rewrite Forall_forall in Hpre. apply Hpre in Hc. congruence. }
    rewrite <- elem_of_reverse, Hr, elem_of_app in Hc.
    destruct Hc as [Hc|Hc]; [|done].
    rewrite Forall_forall in Hpre'. apply Hpre' in Hc. congruence.
  - intros c. rewrite head_reverse. intros Hlast.
    apply (trimStart_head s). fold a.
    rewrite <- last_reverse, Hr, last_app, Hlast. done.
  - intros c. rewrite last_reverse. apply trimStart_head.
Qed.

(** *** The last [replace], on text the earlier stages left *)

Lemma runs_alphabet in_run s :
  (∀ c, c ∈ chars s → not_lower_alnum_space c = false) →
  Forall (λ c, slug_char c = true) (chars (replace_space_runs in_run s)).
Proof.
  revert in_run. induction s as [|c s IH]; intros in_run Hs; [constructor|].
  assert (∀ c', c' ∈ chars s → not_lower_alnum_space c' = false) as Hs'.
  { intros c' Hc'. apply Hs. by right. }
  simpl. destruct (is_white_space c) eqn:E.
  - destruct in_run; [by apply IH|]. simpl. constructor; [done|by apply IH].
  - simpl. constructor; [|by apply IH].
    apply kept_not_white; [|done]. apply Hs. left.
Qed.

Lemma runs_head in_run s c :
  head (chars s) = Some c → is_white_space c = false →
  head (chars (replace_space_runs in_run s)) = Some c.
Proof.
  destruct s as [|c0 s]; [done|]. simpl. intros [= ->] E. by rewrite E.
Qed.

Lemma runs_last in_run s c :
  last (chars s) = Some c → is_white_space c = false →
  last (chars (replace_space_runs in_run s)) = Some c.
Proof.
  revert in_run. induction s as [|c0 s IH]; intros in_run; [done|].
  simpl chars at 1. rewrite last_cons.
  destruct (last (chars s)) as [c1|] eqn:El.
  - intros [= ->] E. specialize (λ b, IH b eq_refl E). simpl.
    destruct (is_white_space c0); [destruct in_run|]; simpl;
      rewrite ?last_cons, IH; done.
  - intros [= ->] E. apply last_None in El.
    destruct s; [|done]. simpl. by rewrite E.
Qed.

Lemma runs_continue s :
  (∀ c, c ∈ chars s → not_lower_alnum_space c = false) →
  head (chars (replace_space_runs true s)) ≠ Some underscore.
Proof.
  induction s as [|c s IH]; intros Hs; [done|]. simpl.
  destruct (is_white_space c) eqn:E.
  - apply IH. intros c' Hc'. apply Hs. by right.
  - simpl. intros [= ->].
    assert (not_lower_alnum_space underscore = false) as Habs; [|done].
    apply Hs. left.
Qed.

Lemma runs_single in_run s l1 l2 :
  (∀ c, c ∈ chars s → not_lower_alnum_space c = false) →
  chars (replace_space_runs in_run s) ≠ l1 ++ [underscore; underscore] ++ l2.
Proof.
  revert in_run l1. induction s as [|c s IH]; intros in_run l1 Hs.
  { simpl. by destruct l1. }
  assert (∀ c', c' ∈ chars s → not_lower_alnum_space c' = false) as Hs'.
  { intros c' Hc'. apply Hs. by right. }
  simpl. destruct (is_white_space c) eqn:E.
  - destruct in_run; [by apply IH|]. simpl.
    destruct l1 as [|x l1]; simpl.
    + intros [= H]. apply (runs_continue s Hs'). by rewrite H.
    + intros [= _ H]. by apply (IH true l1).
  - simpl. destruct l1 as [|x l1]; simpl.
    + intros [= -> _].
      assert (not_lower_alnum_space underscore = false) as Habs; [|done].
      apply Hs. left.
    + intros [= _ H]. by apply (IH false l1).
Qed.

Lemma runs_keep in_run s c :
  c ∈ chars s → is_white_space c = false →
  c ∈ chars (replace_space_runs in_run s).
Proof.
  revert in_run. induction s as [|c0 s IH]; intros in_run.
  { by intros []%elem_of_nil. }
  simpl chars at 1. intros [->|Hc]%elem_of_cons E; simpl.
  - rewrite E. left.
  - destruct (is_white_space c0); [destruct in_run|]; simpl;
      rewrite ?elem_of_cons; auto.
Qed.

(** The text the last [replace] works on. *)
Lemma before_runs title c :
  c ∈ chars (trim (remove_all not_lower_alnum_space
                     (remove_all is_apostrophe (toLowerCase title)))) →
  not_lower_alnum_space c = false.
Proof.
  intros Hc. apply (proj1 (trim_chars _)) in Hc.
  rewrite chars_remove_all in Hc. by apply list_elem_of_filter in Hc as [? _].
Qed.

End SlugFacts.

(** X12. A slug is made of lower-case letters, digits and underscores
    only, it neither starts nor ends with an underscore, and it has no two
    underscores in a row. *)
Theorem generateId_well_formed (title : string) :
  Forall (λ c, slug_char c = true) (list_ascii_of_string (generateId title))
  ∧ head (list_ascii_of_string (generateId title)) ≠ Some underscore
  ∧ last (list_ascii_of_string (generateId title)) ≠ Some underscore
  ∧ ∀ l1 l2, list_ascii_of_string (generateId title)
             ≠ l1 ++ [underscore; underscore] ++ l2.
Proof.
  unfold generateId.
  set (w := trim (remove_all not_lower_alnum_space
                    (remove_all is_apostrophe (toLowerCase title)))).
  pose proof (SlugFacts.before_runs title) as Hw. fold w in Hw.
  destruct (SlugFacts.trim_chars
              (remove_all not_lower_alnum_space
                 (remove_all is_apostrophe (toLowerCase title))))
    as (_ & _ & Hhead & Hlast). fold w in Hhead, Hlast.
  split_and!.
  - by apply SlugFacts.runs_alphabet.
  - destruct (head (list_ascii_of_string w)) as [c|] eqn:E.
    + rewrite (SlugFacts.runs_head false w c E (Hhead c eq_refl)).
      intros [= ->]. apply head_Some in E as [l' E].
      assert (not_lower_alnum_space underscore = false) as Habs; [|done].
      apply Hw. rewrite E. left.
    + apply head_None in E. destruct w; [done|discriminate].
  - destruct (last (list_ascii_of_string w)) as [c|] eqn:E.
    + rewrite (SlugFacts.runs_last false w c E (Hlast c eq_refl)).
      intros [= ->]. apply last_Some in E as [l' E].
      assert (not_lower_alnum_space underscore = false) as Habs; [|done].
      apply Hw. rewrite E. apply elem_of_app. right. left.
    + apply last_None in E. destruct w; [done|discriminate].
  - intros l1 l2. by apply SlugFacts.runs_single.
Qed.

(** On a title of code units below 256 the slug is empty exactly when
    the title has no letter and no digit. Arbitrary titles follow
    below. *)
Lemma generateId_empty (title : string) :
  generateId title = ""
  ↔ Forall (λ c, alnum_char c = false) (list_ascii_of_string title).
Proof.
  unfold generateId.
  set (u := remove_all not_lower_alnum_space
              (remove_all is_apostrophe (toLowerCase title))).
  assert (∀ c, c ∈ list_ascii_of_string u
               ↔ not_lower_alnum_space c = false ∧ is_apostrophe c = false
                 ∧ ∃ c0, c = lower_char c0 ∧ c0 ∈ list_ascii_of_string title)
    as Hu.
  { intros c. unfold u.
    rewrite !SlugFacts.chars_remove_all, SlugFacts.chars_toLowerCase.
    by rewrite !list_elem_of_filter, list_elem_of_fmap. }
  split.
  - intros Hempty. apply Forall_forall. intros c Hc.
    destruct (alnum_char c) eqn:E; [|done].
    apply SlugFacts.lower_alnum_kept in E as (Hap & Hkeep & Hnw).
    assert (lower_char c ∈ list_ascii_of_string (trim u)) as Hin.
    { apply (proj1 (proj2 (SlugFacts.trim_chars u))); [|done].
      apply Hu. eauto. }
    apply (SlugFacts.runs_keep false) in Hin; [|done].
    rewrite Hempty in Hin. by apply elem_of_nil in Hin.
  - intros Hnone. rewrite Forall_forall in Hnone.
    assert (trimStart u = "") as Hstart.
    { apply SlugFacts.trimStart_white, Forall_forall.
      intros c (Hkeep & _ & c0 & -> & Hc0)%Hu.
      by apply SlugFacts.lower_other_white; [apply Hnone|]. }
    unfold trim. by rewrite Hstart.
Qed.

(** ** Slugs of arbitrary titles *)

Module Utf16Facts.
Import Utf16.

(** *** Single code units *)

Ltac unit_cases :=
  repeat match goal with
         | |- context [(?a <=? ?b)%N] =>
             destruct (N.leb_spec a b); simpl; try (exfalso; lia)
         | |- context [(?a =? ?b)%N] =>
             destruct (N.eqb_spec a b); simpl; try (exfalso; lia)
         end.

(** The second [replace] keeps exactly the code units that can occur in
    a slug, and the first removes none of them. *)
Lemma kept_by_replace u :
  not_lower_alnum_space u = false ↔ slug_kept u = true.
Proof.
  unfold not_lower_alnum_space, slug_kept, between. unit_cases; done.
Qed.

Lemma apostrophe_removed u : slug_kept u = true → is_apostrophe u = false.
Proof. unfold slug_kept, is_apostrophe, between. unit_cases; done. Qed.

(** A code unit that leaves something in the slug leaves one unit that is
    no white space. *)
Lemma source_kept u :
  slug_source u = true →
  ∃ v, slug_image u = [v] ∧ is_white_space v = false.
Proof.
  unfold slug_source, slug_image, slug_kept, between.
  unit_cases; intros Hsource; try done; eexists; (split; [done|]);
    unfold is_white_space; unit_cases; done.
Qed.

(** What any other code unit leaves is white space. *)
Lemma other_white u :
  slug_source u = false →
  Forall (λ v, is_white_space v = true) (slug_image u).
Proof.
  unfold slug_source, slug_image, slug_kept, between.
  unit_cases; intros Hsource; try done; repeat constructor.
  by subst.
Qed.

Lemma lower_unit_image u :
  filter (λ v, slug_kept v = true) (lower_unit u) = slug_image u.
Proof.
  unfold lower_unit, slug_image.
  destruct (between 65 90 u) eqn:Ecap.
  - rewrite filter_cons_True, filter_nil; [done|].
    revert Ecap. unfold slug_kept, between. unit_cases; done.
  - destruct (slug_kept u) eqn:Ekept.
    + assert ((u =? 304)%N = false ∧ (u =? 8490)%N = false) as [-> ->].
      { revert Ekept. unfold slug_kept, between. unit_cases; done. }
      by rewrite filter_cons_True, filter_nil.
    + destruct (N.eqb_spec u 304) as [->|_]; [done|].
      destruct (N.eqb_spec u 8490) as [->|_]; [done|].
      by rewrite filter_cons_False, filter_nil by by rewrite Ekept.
Qed.

Lemma lower_sample_like_js : lowers_like_js lower_sample.
Proof.
  intros s. unfold lower_sample.
  induction s as [|u s IH]; [done|].
  rewrite !bind_cons, filter_app, IH. f_equal. apply lower_unit_image.
Qed.

(** *** The stages of [generateId] *)

Lemma trimStart_all_white s :
  Forall (λ u, is_white_space u = true) s → trimStart s = [].
Proof.
  induction s as [|u s IH]; [done|]. simpl.
  intros [Hu Hs]%Forall_cons. rewrite Hu. auto.
Qed.

Lemma trimStart_keeps s v :
  v ∈ s → is_white_space v = false → v ∈ trimStart s.
Proof.
  induction s as [|u s IH]; [done|]. simpl.
  destruct (is_white_space u) eqn:E; [|done].
  intros [->|Hv]%elem_of_cons Hnw; [congruence|auto].
Qed.

Lemma trim_keeps s v : v ∈ s → is_white_space v = false → v ∈ trim s.
Proof.
  intros Hv Hnw. unfold trim.
  apply elem_of_reverse, trimStart_keeps; [|done].
  by apply elem_of_reverse, trimStart_keeps.
Qed.

Lemma runs_keeps in_run s v :
  v ∈ s → is_white_space v = false → v ∈ replace_space_runs in_run s.
Proof.
  revert in_run. induction s as [|u s IH]; intros in_run.
  { by intros []%elem_of_nil. }
  intros [->|Hv]%elem_of_cons E; simpl.
  - rewrite E. left.
  - destruct (is_white_space u); [destruct in_run|];
      rewrite ?elem_of_cons; auto.
Qed.

(** What the stages after [toLowerCase] work on. *)
Lemma kept_image toLowerCase title :
  lowers_like_js toLowerCase →
  remove_all not_lower_alnum_space
    (remove_all is_apostrophe (toLowerCase title))
  = title ≫= slug_image.
Proof.
  intros Hlower. rewrite <- Hlower. unfold remove_all.
  rewrite list_filter_filter. apply list_filter_iff. intros u.
  rewrite kept_by_replace. split; [by intros [? _]|].
  intros Hkept. split; [done|]. by apply apostrophe_removed.
Qed.

(** *** Titles of code units below 256

    On these the steps above are those of [GenerateTiers], character by
    character. *)

Ltac all_chars c :=
  destruct c as [[] [] [] [] [] [] [] []]; vm_compute; try done.

Lemma units_white_space c :
  is_white_space (N_of_ascii c) = GenerateTiers.is_white_space c.
Proof. all_chars c. Qed.

Lemma units_image c :
  slug_image (N_of_ascii c)
  = N_of_ascii
      <$> filter (λ c, GenerateTiers.not_lower_alnum_space c = false)
            (filter (λ c, GenerateTiers.is_apostrophe c = false)
               [GenerateTiers.lower_char c]).
Proof. all_chars c. Qed.

Lemma units_rev s : units (String.rev s) = reverse (units s).
Proof. unfold units. by rewrite SlugFacts.chars_rev, fmap_reverse. Qed.

Lemma units_trimStart s :
  units (GenerateTiers.trimStart s) = trimStart (units s).
Proof.
  induction s as [|c s IH]; [done|].
  change (units (String c s)) with (N_of_ascii c :: units s).
  simpl. rewrite units_white_space.
  by destruct (GenerateTiers.is_white_space c).
Qed.

Lemma units_trim s : units (GenerateTiers.trim s) = trim (units s).
Proof.
  unfold GenerateTiers.trim, trim.
  by rewrite units_rev, units_trimStart, units_rev, units_trimStart.
Qed.

Lemma units_runs in_run s :
  units (GenerateTiers.replace_space_runs in_run s)
  = replace_space_runs in_run (units s).
Proof.
  revert in_run. induction s as [|c s IH]; intros in_run; [done|].
  change (units (String c s)) with (N_of_ascii c :: units s).
  simpl. rewrite units_white_space.
  destruct (GenerateTiers.is_white_space c); [destruct in_run|];
    rewrite <- IH; done.
Qed.

Lemma units_kept s :
  units (GenerateTiers.remove_all GenerateTiers.not_lower_alnum_space
           (GenerateTiers.remove_all GenerateTiers.is_apostrophe
              (GenerateTiers.toLowerCase s)))
  = units s ≫= slug_image.
Proof.
  unfold units.
  rewrite !SlugFacts.chars_remove_all, SlugFacts.chars_toLowerCase.
  induction (list_ascii_of_string s) as [|c l IH]; [done|].
  rewrite !fmap_cons, bind_cons, units_image, <- IH.
  change (GenerateTiers.lower_char c :: (GenerateTiers.lower_char <$> l))
    with ([GenerateTiers.lower_char c] ++ (GenerateTiers.lower_char <$> l)).
  by rewrite !filter_app, fmap_app.
Qed.

(** On a title of code units below 256, [GenerateTiers.generateId] gives
    the slug of the source, whatever becomes of characters beyond. *)
Lemma generateId_units toLowerCase title :
  lowers_like_js toLowerCase →
  generateId toLowerCase (units title)
  = units (GenerateTiers.generateId title).
Proof.
  intros Hlower. unfold generateId, GenerateTiers.generateId.
  by rewrite kept_image, units_runs, units_trim, units_kept.
Qed.

End Utf16Facts.

Example kelvin_sign_slug :
  Utf16.generateId Utf16.lower_sample [8490%N] = [107%N].
Proof. reflexivity. Qed.

Example dotted_capital_slug :
  Utf16.generateId Utf16.lower_sample [304%N] = [105%N].
Proof. reflexivity. Qed.

(** X13. The slug of a title is empty exactly when none of its code units
    is an ASCII letter, a digit, U+0130 or U+212A, whatever the
    lower-casing function, as long as the ASCII letters, digits and spaces
    of its results arise as they do in JavaScript. *)
Theorem generateId_empty_utf16
    (toLowerCase : list N → list N) (title : list N) :
  Utf16.lowers_like_js toLowerCase →
  Utf16.generateId toLowerCase title = []
  ↔ Forall (λ u, Utf16.slug_source u = false) title.
Proof.
  intros Hlower. unfold Utf16.generateId.
  rewrite Utf16Facts.kept_image by done. split.
  - intros Hempty. apply Forall_forall. intros u Hu.
    destruct (Utf16.slug_source u) eqn:E; [|done].
    apply Utf16Facts.source_kept in E as (v & Himage & Hnw).
    assert (v ∈ title ≫= Utf16.slug_image) as Hv.
    { apply list_elem_of_bind. exists u. split; [|done].
      rewrite Himage. left. }
    apply (Utf16Facts.trim_keeps _ _ Hv) in Hnw as Hin.
    apply (Utf16Facts.runs_keeps false) in Hin; [|done].
    rewrite Hempty in Hin. by apply elem_of_nil in Hin.
  - intros Hnone.
    assert (Utf16.trimStart (title ≫= Utf16.slug_image) = []) as Hstart.
    { apply Utf16Facts.trimStart_all_white, Forall_bind.
      eapply Forall_impl; [exact Hnone|]. intros u.
      apply Utf16Facts.other_white. }
    unfold Utf16.trim. by rewrite Hstart.
Qed.

Lemma generateId_empty_utf16_witness :
  Utf16.lowers_like_js Utf16.lower_sample
  ∧ (Utf16.generateId Utf16.lower_sample [8490%N; 33%N] = []
     ↔ Forall (λ u, Utf16.slug_source u = false) [8490%N; 33%N]).
Proof.
  split; [exact Utf16Facts.lower_sample_like_js|].
  exact (generateId_empty_utf16 Utf16.lower_sample [8490%N; 33%N]
           Utf16Facts.lower_sample_like_js).
Defined.

(** ** The written catalog *)

Module CatalogFacts.
Import PassFacts TierFacts SorterFacts.

(** No round that is kept produces an empty tier. *)
Lemma tier_loop_nonempty fuel rem processed tiers tiers' :
  tier_loop fuel rem processed tiers = Some (Done tiers') →
  Forall (λ tier, tier ≠ []) tiers → Forall (λ tier, tier ≠ []) tiers'.
Proof.
  revert rem processed tiers. induction fuel as [|fuel IH];
    intros rem processed tiers.
  - destruct rem; [|done]. simpl. by intros [= <-].
  - destruct rem as [|q0 rem0] eqn:Erem; [by intros [= <-]|].
    rewrite <- Erem.
    replace (tier_loop (S fuel) rem processed tiers) with
      (let '(currentTier, questsForNextRound) := round processed rem in
       if (length currentTier =? 0)%nat
          && (0 <? length questsForNextRound)%nat
       then Some (Circular questsForNextRound)
       else
         tier_loop fuel questsForNextRound
           (foldl (λ s quest, set_add (id quest) s) processed currentTier)
           (tiers ++ [currentTier])) by by rewrite Erem.
    rewrite round_filter.
    pose proof (round_Permutation processed rem) as Hsplit.
    destruct (filter (λ q, depsMet processed q = true) rem)
      as [|q1 now'] eqn:Enow.
    + simpl in Hsplit. apply Permutation_length in Hsplit.
      rewrite Erem in Hsplit at 2. simpl in Hsplit.
      destruct (filter (λ q, depsMet processed q = false) rem); done.
    + cbn [length Nat.eqb andb]. intros Hrun Htiers.
      apply (IH _ _ _ Hrun). apply Forall_app. split; [done|].
      by constructor.
Qed.

Section Input.

Variable questMap : list (string * RawData.RawQuest).

Local Abbreviation all := (map_values (allQuests_of questMap)).

(** What [main] writes satisfies the invariant of its loop with nothing
    left over, and has no empty tier. *)
Lemma written_inv run tiers :
  main questMap = Some run → written run = Some tiers →
  (∃ processed, tiers_inv all [] processed tiers)
  ∧ Forall (λ tier, tier ≠ []) tiers.
Proof.
  rewrite main_unfold.
  destruct (tier_loop (length all) all [] []) as [[stuck|tiers']|] eqn:Eloop;
    [by intros [= <-]| |done].
  intros [= <-] [= <-].
  destruct (main_loop questMap)
    as [(p & t & Hrun & Hinv)|(stuck & p & t & Hrun & _)];
    rewrite Eloop in Hrun; [|done].
  injection Hrun as <-. split; [by exists p|].
  by eapply tier_loop_nonempty.
Qed.

Lemma written_all run tiers :
  main questMap = Some run → written run = Some tiers →
  concat tiers ≡ₚ all.
Proof.
  intros Hrun Hw.
  destruct (written_inv run tiers Hrun Hw) as [(p & Hperm & _) _].
  by rewrite app_nil_r in Hperm.
Qed.

End Input.

End CatalogFacts.

(** X14. Every quest of a written catalog is the resolution of an entry
    of the input: it has the entry's title and url, its id is the slug of
    the title, and its dependencies are the slugs of the listed titles
    that are titles of the input and have a non-empty slug, in the order
    listed; the other listed titles are dropped. *)
Theorem written_quests_resolved
    (questMap : list (string * RawData.RawQuest)) (run : Run)
    (questTiers : list (list Quest)) (q : Quest) :
  main questMap = Some run → written run = Some questTiers →
  q ∈ concat questTiers →
  ∃ data,
    (title q, data) ∈ questMap
    ∧ id q = generateId (title q)
    ∧ url q = RawData.url data
    ∧ dependencies q
      = generateId <$> filter (λ d, d ∈ questMap.*1 ∧ generateId d ≠ "")
                         (RawData.dependencies data).
Proof.
  intros Hrun Hw Hq.
  rewrite (CatalogFacts.written_all questMap run questTiers Hrun Hw) in Hq.
  apply PassFacts.allQuests_value, PassFacts.allQuests_get_Some in Hq
    as ([t data] & Hentry & [= _ ->]).
  exists data. split_and!; [done..|]. apply PassFacts.dependencyIds_exact.
Qed.

Lemma written_quests_resolved_witness :
  ∃ run questTiers q,
    main Samples.scraped = Some run
    ∧ written run = Some questTiers
    ∧ q ∈ concat questTiers
    ∧ dependencies q = ["a_bad_feeling"]
    ∧ ∃ data,
        (title q, data) ∈ Samples.scraped
        ∧ id q = generateId (title q)
        ∧ url q = RawData.url data
        ∧ dependencies q
          = generateId <$> filter (λ d, d ∈ Samples.scraped.*1
                                        ∧ generateId d ≠ "")
                             (RawData.dependencies data).
Proof.
  assert (∃ run, main Samples.scraped = Some run) as [run Hrun] by by eexists.
  assert (∃ tiers, written run = Some tiers) as [tiers Hw].
  { vm_compute in Hrun. injection Hrun as <-. by eexists. }
  set (q := {| id := "bees"; title := "Bees!";
               url := "https://arcraiders.wiki/wiki/Quests";
               dependencies := ["a_bad_feeling"] |}).
  assert (q ∈ concat tiers) as Hq.
  { vm_compute in Hrun. injection Hrun as <-. injection Hw as <-.
    simpl. right. left. }
  exists run, tiers, q. split_and!; [done..|].
  exact (written_quests_resolved Samples.scraped run tiers q Hrun Hw Hq).
Defined.

(** X15. A written catalog is sound for the runtime: no two quests share
    an id, the composable's [questMap] finds every quest under its id,
    every dependency id is the id of a quest of the catalog, and the
    dependency relation the composable reads from it has no cycle. *)
Theorem written_catalog_sound
    (questMap : list (string * RawData.RawQuest)) (run : Run)
    (questTiers : list (list Quest)) :
  main questMap = Some run → written run = Some questTiers →
  unique_ids questTiers
  ∧ (∀ q, q ∈ concat questTiers →
          map_get (id q) (UseQuests.questMap questTiers) = Some q)
  ∧ (∀ q d, q ∈ concat questTiers → d ∈ dependencies q →
            ∃ q', q' ∈ concat questTiers ∧ id q' = d)
  ∧ acyclic (direct_dep questTiers).
Proof.
  intros Hrun Hw.
  pose proof (CatalogFacts.written_all questMap run questTiers Hrun Hw)
    as Hperm.
  destruct (CatalogFacts.written_inv questMap run questTiers Hrun Hw)
    as [(p & Hinv) _].
  assert (unique_ids questTiers) as Hunique.
  { unfold unique_ids. rewrite Hperm. apply PassFacts.allQuests_ids_NoDup. }
  split_and!.
  - done.
  - intros q Hq. apply TraversalFacts.questMap_value. unfold map_values.
    rewrite TraversalFacts.questMap_unique_ids by done.
    rewrite <- list_fmap_compose. simpl. by rewrite list_fmap_id.
  - intros q d Hq Hd. rewrite Hperm in Hq.
    pose proof (PassFacts.allQuests_closed questMap q d Hq Hd) as Hin.
    apply list_elem_of_fmap in Hin as (q' & -> & Hq').
    exists q'. split; [|done]. by rewrite Hperm.
  - intros x Hx.
    assert (tc (resolved_dep questMap) x x) as Hcycle.
    { apply (tc_congruence (λ i : string, i) (resolved_dep questMap)) in Hx;
        [done|].
      intros a b (q & Hq & Hb).
      apply TraversalFacts.questMap_get_Some in Hq as [<- Hq].
      rewrite Hperm in Hq. apply PassFacts.allQuests_value in Hq.
      by exists q. }
    destruct (SorterFacts.cycle_remains questMap _ _ _ Hinv x Hcycle)
      as (q & []%elem_of_nil & _).
Qed.

Lemma written_catalog_sound_witness :
  ∃ run questTiers,
    main Samples.scraped = Some run
    ∧ written run = Some questTiers
    ∧ unique_ids questTiers
    ∧ (∀ q, q ∈ concat questTiers →
            map_get (id q) (UseQuests.questMap questTiers) = Some q)
    ∧ (∀ q d, q ∈ concat questTiers → d ∈ dependencies q →
              ∃ q', q' ∈ concat questTiers ∧ id q' = d)
    ∧ acyclic (direct_dep questTiers).
Proof.
  assert (∃ run, main Samples.scraped = Some run) as [run Hrun] by by eexists.
  assert (∃ tiers, written run = Some tiers) as [tiers Hw].
  { vm_compute in Hrun. injection Hrun as <-. by eexists. }
  exists run, tiers. split; [done|]. split; [done|].
  exact (written_catalog_sound Samples.scraped run tiers Hrun Hw).
Defined.

(** X16. In a written catalog no tier is empty, tier 0 holds exactly the
    quests without dependencies, and every quest of a later tier has a
    dependency in the tier just before its own. *)
Theorem written_tiers_by_depth
    (questMap : list (string * RawData.RawQuest)) (run : Run)
    (questTiers : list (list Quest)) :
  main questMap = Some run → written run = Some questTiers →
  (∀ tier, tier ∈ questTiers → tier ≠ [])
  ∧ (∀ q, in_tier questTiers 0 q
          ↔ q ∈ concat questTiers ∧ dependencies q = [])
  ∧ (∀ t q, in_tier questTiers (S t) q →
            ∃ q', in_tier questTiers t q' ∧ id q' ∈ dependencies q).
Proof.
  intros Hrun Hw.
  destruct (CatalogFacts.written_inv questMap run questTiers Hrun Hw)
    as [(p & _ & _ & Htiers & _) Hfull].
  split_and!.
  - intros tier Hin. rewrite Forall_forall in Hfull. by apply Hfull.
  - intros q. split.
    + intros Hq. split; [apply TierFacts.in_tier_concat; by exists 0|].
      destruct (Htiers 0 q Hq) as [Hready _].
      destruct (dependencies q) as [|d ds] eqn:E; [done|].
      destruct (Hready d) as (t' & _ & Hlt & _); [rewrite E; left|lia].
    + intros [[t Hq]%TierFacts.in_tier_concat Hnone].
      destruct t as [|t]; [done|].
      destruct (Htiers (S t) q Hq) as [_ Hmin].
      destruct (Hmin 0); [lia|]. intros d Hd. rewrite Hnone in Hd.
      by apply elem_of_nil in Hd.
  - intros t q Hq. destruct (Htiers (S t) q Hq) as [Hready Hmin].
    assert (∀ ds : list string,
              (∀ d, d ∈ ds → placed_before questTiers (S t) d) →
              (∃ q', in_tier questTiers t q' ∧ id q' ∈ ds)
              ∨ ∀ d, d ∈ ds → placed_before questTiers t d) as Hwalk.
    { induction ds as [|d ds IH]; intros Hds.
      - right. by intros d []%elem_of_nil.
      - destruct (Hds d) as (t' & q' & Hlt & Hin & Hid); [left|].
        destruct (decide (t' = t)) as [->|Hne].
        + left. exists q'. split; [done|]. rewrite Hid. left.
        + destruct IH as [(q'' & ? & ?)|Hall].
          * intros d' Hd'. apply Hds. by right.
          * left. exists q''. split; [done|]. by right.
          * right. intros d' [->|Hd']%elem_of_cons; [|auto].
            exists t', q'. split_and!; [lia|done..]. }
    destruct (Hwalk (dependencies q) Hready) as [?|Hall]; [done|].
    destruct (Hmin t); [lia|done].
Qed.

Lemma written_tiers_by_depth_witness :
  ∃ run questTiers,
    main Samples.scraped = Some run
    ∧ written run = Some questTiers
    ∧ (∀ tier, tier ∈ questTiers → tier ≠ [])
    ∧ (∀ q, in_tier questTiers 0 q
            ↔ q ∈ concat questTiers ∧ dependencies q = [])
    ∧ (∀ t q, in_tier questTiers (S t) q →
              ∃ q', in_tier questTiers t q' ∧ id q' ∈ dependencies q).
Proof.
  assert (∃ run, main Samples.scraped = Some run) as [run Hrun] by by eexists.
  assert (∃ tiers, written run = Some tiers) as [tiers Hw].
  { vm_compute in Hrun. injection Hrun as <-. by eexists. }
  exists run, tiers. split; [done|]. split; [done|].
  exact (written_tiers_by_depth Samples.scraped run tiers Hrun Hw).
Defined.
